(** * Dynamic MAS update rules (src/api/mas-update.ts)

    A shallow embedding of the dynamic rule store: the prompt parser
    [parsePrompt], the store operations [addRule], [checkMessage],
    [getRules], [deactivateRule], [clear], and [applyDynamicRules].

    Strings.  A JavaScript string is a sequence of UTF-16 code units.  The
    development covers the code units U+0000..U+00FF (Latin-1): a string is
    a [list ascii], the character [ascii_of_nat n] standing for the code unit
    [n].  On this range [toLowerCase], the white space class and the
    canonicalisation of case-insensitive regular expressions are those of
    ECMAScript.  [toLowerCase] works code unit by code unit here; on other
    texts it need not (it can change the length of a text), so what is
    proved about matching a message is stated on the lowercased message,
    [toLowerCase message], as [checkMessage] computes it, and uses no
    property of [toLowerCase].

    Effects.  [Date.now()], [Math.random()] and [new Date().toISOString()]
    are read from the environment; the texts they produce are passed to
    [parsePrompt] in a [Stamp].  The console output of [addRule] and
    [checkMessage] is not part of the modelled state. *)

From Stdlib Require Import NArith Ascii String.
From stdpp Require Import base option list strings.

Local Open Scope nat_scope.
Local Open Scope list_scope.

Abbreviation str := (list ascii).

(** A string literal of the source, as a sequence of code units. *)
Coercion list_ascii_of_string : string >-> list.

(** ** Characters *)

Definition code (c : ascii) : N := N_of_ascii c.

Definition in_range (lo hi : N) (c : ascii) : bool :=
  ((lo <=? code c) && (code c <=? hi))%N.

(** Code units that have a lower case form different from themselves:
    A-Z, and in Latin-1 U+00C0..U+00D6 and U+00D8..U+00DE. *)
Definition is_upper (c : ascii) : bool :=
  in_range 65 90 c || in_range 192 214 c || in_range 216 222 c.

(** Code units whose upper case form is a single Latin-1 code unit different
    from themselves: a-z, U+00E0..U+00F6 and U+00F8..U+00FE.  (The upper
    case forms of U+00B5, U+00DF and U+00FF lie outside Latin-1.) *)
Definition is_lower (c : ascii) : bool :=
  in_range 97 122 c || in_range 224 246 c || in_range 248 254 c.

Definition lower_char (c : ascii) : ascii :=
  if is_upper c then ascii_of_N (code c + 32) else c.

Definition upper_char (c : ascii) : ascii :=
  if is_lower c then ascii_of_N (code c - 32) else c.

(** ECMAScript WhiteSpace and LineTerminator code units below U+0100:
    TAB, LF, VT, FF, CR, SP and NBSP.  This is the class [\s], and what
    [trim] removes. *)
Definition white_space : list ascii :=
  map ascii_of_N [9; 10; 11; 12; 13; 32; 160]%N.

Definition is_space (c : ascii) : bool :=
  existsb (Ascii.eqb c) white_space.

(** All the code units of the model, for properties checked by
    enumeration. *)
Definition all_chars : list ascii := map ascii_of_nat (seq 0 256).

(** ** String operations of the JavaScript library *)

(** [s.toLowerCase()] *)
Definition toLowerCase (s : str) : str := map lower_char s.

(** [s.toUpperCase()], for strings without U+00B5, U+00DF and U+00FF; the
    source applies it to a run matched by [[A-Z_]+] only. *)
Definition toUpperCase (s : str) : str := map upper_char s.

(** [s.startsWith(t)] *)
Fixpoint startsWith (s t : str) {struct t} : bool :=
  match t, s with
  | [], _ => true
  | _ :: _, [] => false
  | b :: t', a :: s' => Ascii.eqb a b && startsWith s' t'
  end.

(** [s.includes(t)]: [t] occurs in [s] at some position. *)
Fixpoint includes (s t : str) : bool :=
  startsWith s t ||
  match s with
  | [] => false
  | _ :: s' => includes s' t
  end.

Fixpoint trimStart (s : str) : str :=
  match s with
  | [] => []
  | c :: s' => if is_space c then trimStart s' else s
  end.

Definition trimEnd (s : str) : str := rev (trimStart (rev s)).

(** [s.trim()] *)
Definition trim (s : str) : str := trimEnd (trimStart s).

(** ** Regular expressions

    The fragment of ECMAScript regular expressions that the source uses,
    with the backtracking matcher of the language: alternatives are tried
    left to right, [?] and [+] are greedy, and a failure of the rest of the
    pattern backtracks into the last choice. *)

Inductive regex : Type :=
  | Eps                                         (* empty pattern *)
  | Chr (c : ascii)                             (* a pattern character *)
  | Cls (invert : bool) (members : list ascii)  (* [...] , [^...] , \s *)
  | Seq (r1 r2 : regex)                         (* r1r2 *)
  | Alt (r1 r2 : regex)                         (* r1|r2 *)
  | Opt (r : regex)                             (* r? *)
  | Plus (invert : bool) (members : list ascii) (* class+ *)
  | Grp (r : regex).                            (* ( r ), capture group 1 *)

Fixpoint Lit (s : str) : regex :=
  match s with
  | [] => Eps
  | c :: s' => Seq (Chr c) (Lit s')
  end.

Declare Scope regex_scope.
Delimit Scope regex_scope with re.
Bind Scope regex_scope with regex.
Infix "⋅" := Seq (at level 60, right associativity) : regex_scope.
Infix "∣" := Alt (at level 69, left associativity) : regex_scope.

(** Canonicalize of the ECMAScript specification (non-unicode mode): with
    the [i] flag a code unit is compared through its upper case form when
    that form is a single code unit; a code unit above U+007F is never
    identified with one below U+0080. *)
Definition canonicalize (ignoreCase : bool) (c : ascii) : ascii :=
  if ignoreCase then upper_char c else c.

Section Matcher.
Variable ignoreCase : bool.

Definition chr_match (c ch : ascii) : bool :=
  Ascii.eqb (canonicalize ignoreCase ch) (canonicalize ignoreCase c).

(** CharacterSetMatcher: [ch] is in the class when some member has the
    same canonical form. *)
Definition cls_match (invert : bool) (members : list ascii) (ch : ascii) : bool :=
  xorb invert
    (existsb (fun a => Ascii.eqb (canonicalize ignoreCase a)
                                 (canonicalize ignoreCase ch)) members).

(** Greedy [class+]: the longest run first, then shorter ones. *)
Fixpoint plus_run {A} (p : ascii → bool) (s : str) (k : str → option A)
  : option A :=
  match s with
  | [] => None
  | c :: s' =>
      if p c then
        match plus_run p s' k with
        | Some a => Some a
        | None => k s'
        end
      else None
  end.

(** [run r s g k] matches [r] at the head of [s]; [g] is the current
    value of capture group 1 and [k] the rest of the pattern, which
    receives the remaining input. *)
Fixpoint run {A} (r : regex) (s : str) (g : option str)
    (k : str → option str → option A) : option A :=
  match r with
  | Eps => k s g
  | Chr c =>
      match s with
      | ch :: s' => if chr_match c ch then k s' g else None
      | [] => None
      end
  | Cls inv mem =>
      match s with
      | ch :: s' => if cls_match inv mem ch then k s' g else None
      | [] => None
      end
  | Seq r1 r2 => run r1 s g (fun s1 g1 => run r2 s1 g1 k)
  | Alt r1 r2 =>
      match run r1 s g k with
      | Some a => Some a
      | None => run r2 s g k
      end
  | Opt r1 =>
      match run r1 s g k with
      | Some a => Some a
      | None => k s g
      end
  | Plus inv mem => plus_run (cls_match inv mem) s (fun s' => k s' g)
  | Grp r1 =>
      run r1 s g (fun s' _ => k s' (Some (take (length s - length s') s)))
  end.

(** A match at the head of [s]: the matched text, group 1 and the rest. *)
Definition exec_at (r : regex) (s : str) : option (str * option str * str) :=
  run r s None (fun s' g => Some (take (length s - length s') s, g, s')).
End Matcher.

(** The result of [s.match(r)] for a pattern without the [g] flag. *)
Record Match : Type := {
  index : nat;
  matched : str;
  group1 : option str
}.

(** [s.match(r)]: the first position, from the left, at which [r] matches. *)
Fixpoint match_from (ic : bool) (r : regex) (i : nat) (s : str) : option Match :=
  match exec_at ic r s with
  | Some (w, g, _) => Some {| index := i; matched := w; group1 := g |}
  | None =>
      match s with
      | [] => None
      | _ :: s' => match_from ic r (S i) s'
      end
  end.

Definition match_ (ic : bool) (r : regex) (s : str) : option Match :=
  match_from ic r 0 s.

(** [s.replace(r, '')] for a pattern with the [g] flag: every match, found
    left to right, is removed; after an empty match the scan moves on by one
    code unit.  [skip] counts the code units of the current match that are
    still to be dropped. *)
Fixpoint remove_from (ic : bool) (r : regex) (skip : nat) (s : str) : str :=
  match s with
  | [] => []
  | c :: s' =>
      match skip with
      | S n => remove_from ic r n s'
      | 0 =>
          match exec_at ic r s with
          | Some (w, _, _) =>
              match length w with
              | 0 => c :: remove_from ic r 0 s'
              | S n => remove_from ic r n s'
              end
          | None => c :: remove_from ic r 0 s'
          end
      end
  end.

Definition replace_all_empty (ic : bool) (r : regex) (s : str) : str :=
  remove_from ic r 0 s.

(** [s.split(r)] for a separator pattern without capture groups.  [cur] is
    the current piece, reversed. *)
Fixpoint split_from (ic : bool) (r : regex) (skip : nat) (cur : str) (s : str)
  : list str :=
  match s with
  | [] => [rev cur]
  | c :: s' =>
      match skip with
      | S n => split_from ic r n cur s'
      | 0 =>
          match exec_at ic r s with
          | Some (w, _, _) =>
              match length w, cur with
              | 0, [] => split_from ic r 0 [c] s'
              | 0, _ :: _ => rev cur :: split_from ic r 0 [c] s'
              | S n, _ => rev cur :: split_from ic r n [] s'
              end
          | None => split_from ic r 0 (c :: cur) s'
          end
      end
  end.

Definition split (ic : bool) (r : regex) (s : str) : list str :=
  match s with
  | [] => match exec_at ic r [] with Some _ => [] | None => [[]] end
  | _ :: _ => split_from ic r 0 [] s
  end.

(** ** Data model *)

Inductive ActionType : Type := escalate | block | redirect | modify_response.

Record Trigger : Type := {
  keywords : list str;
  intent : option str
}.

Record Action : Type := {
  type : ActionType;
  reason : option str;
  tag : option str;
  targetAgent : option str
}.

Record MASUpdateRule : Type := {
  id : str;
  prompt : str;
  trigger : Trigger;
  action : Action;
  createdAt : str;
  active : bool
}.

(** What the environment supplies to one call of [parsePrompt]: the decimal
    text of [Date.now()], the text of
    [Math.random().toString(36).slice(2, 6)], and
    [new Date().toISOString()]. *)
Record Stamp : Type := {
  now_text : str;
  random_text : str;
  iso_text : str
}.

(** ** The patterns of [parsePrompt] *)

Definition chars_between (lo hi : ascii) : list ascii :=
  map ascii_of_nat
    (seq (nat_of_ascii lo) (nat_of_ascii hi - nat_of_ascii lo + 1)).

(** [\s+] *)
Definition spaces : regex := Plus false white_space.

Definition quote : regex := Cls false ["'"%char; "034"%char].

Open Scope regex_scope.

(** [/if\s+(?:a\s+)?customer\s+(?:wants?\s+to|asks?\s+to|requests?\s+to)\s+([^,]+)/i] *)
Definition pattern_if_customer : regex :=
  Lit "if" ⋅ spaces ⋅ Opt (Lit "a" ⋅ spaces) ⋅ Lit "customer" ⋅ spaces ⋅
  (Lit "want" ⋅ Opt (Chr "s") ⋅ spaces ⋅ Lit "to"
   ∣ Lit "ask" ⋅ Opt (Chr "s") ⋅ spaces ⋅ Lit "to"
   ∣ Lit "request" ⋅ Opt (Chr "s") ⋅ spaces ⋅ Lit "to") ⋅
  spaces ⋅ Grp (Plus true [","%char]).

(** [/when\s+(?:a\s+)?customer\s+([^,]+)/i] *)
Definition pattern_when_customer : regex :=
  Lit "when" ⋅ spaces ⋅ Opt (Lit "a" ⋅ spaces) ⋅ Lit "customer" ⋅ spaces ⋅
  Grp (Plus true [","%char]).

(** [/for\s+([^,]+)\s+requests?/i] *)
Definition pattern_for_requests : regex :=
  Lit "for" ⋅ spaces ⋅ Grp (Plus true [","%char]) ⋅ spaces ⋅
  Lit "request" ⋅ Opt (Chr "s").

Definition triggerPatterns : list regex :=
  [pattern_if_customer; pattern_when_customer; pattern_for_requests].

(** [/their|the|a|an|order|subscription/g] *)
Definition clause_stop_words : regex :=
  Lit "their" ∣ Lit "the" ∣ Lit "a" ∣ Lit "an" ∣ Lit "order" ∣ Lit "subscription".

(** [/if|when|do not|don't|should|must|always|never|the|a|an/g] *)
Definition prompt_stop_words : regex :=
  Lit "if" ∣ Lit "when" ∣ Lit "do not" ∣ Lit "don't" ∣ Lit "should" ∣ Lit "must"
  ∣ Lit "always" ∣ Lit "never" ∣ Lit "the" ∣ Lit "a" ∣ Lit "an".

(** [/[^a-z]+/] *)
Definition non_letters : regex := Plus true (chars_between "a" "z").

(** The tag pattern [/mark\s+(?:as\s+)?Q?([A-Z_]+)Q?/i], where [Q] is the
    class of the single and the double quote; [tag_tail] is the part from
    the first [Q?] on. *)
Definition tag_tail : regex :=
  Opt quote ⋅ Grp (Plus false (chars_between "A" "Z" ++ ["_"%char])) ⋅ Opt quote.

Definition tag_pattern : regex :=
  Lit "mark" ⋅ spaces ⋅ Opt (Lit "as" ⋅ spaces) ⋅ tag_tail.

Close Scope regex_scope.

(** ** [parsePrompt] *)

(** [match[1]]; group 1 takes part in every match of the patterns above. *)
Definition group (m : Match) : str := default [] (group1 m).

(** The words extracted from the clause captured by a trigger pattern. *)
Definition clause_words (clause : str) : list str :=
  List.filter (fun w => 2 <? length w)
    (split false spaces
       (trim (replace_all_empty false clause_stop_words (toLowerCase clause)))).

(** The loop over [triggerPatterns]: the first pattern that matches sets
    [triggerKeywords] and ends the loop. *)
Fixpoint scan_patterns (patterns : list regex) (prompt : str)
    (triggerKeywords : list str) : list str :=
  match patterns with
  | [] => triggerKeywords
  | pattern :: rest =>
      match match_ true pattern prompt with
      | Some m => clause_words (group m)
      | None => scan_patterns rest prompt triggerKeywords
      end
  end.

(** The fallback: words of the whole lowercased prompt. *)
Definition fallback_words (promptLower : str) : list str :=
  take 3
    (List.filter (fun w => 3 <? length w)
       (split false non_letters
          (replace_all_empty false prompt_stop_words promptLower))).

Definition extract_keywords (prompt : str) : list str :=
  let triggerKeywords := scan_patterns triggerPatterns prompt [] in
  if length triggerKeywords =? 0
  then fallback_words (toLowerCase prompt)
  else triggerKeywords.

(** The three tests on the lowercased prompt, in the order of the source;
    a later test overrides an earlier one. *)
Definition classify (promptLower : str) : ActionType * str :=
  let actionType := escalate in
  let reason : str := "Dynamic rule triggered" in
  let '(actionType, reason) :=
    if includes promptLower "escalate" || includes promptLower "needs_attention"
    then (escalate, "Requires manual review per dynamic rule" : str)
    else (actionType, reason) in
  let '(actionType, reason) :=
    if includes promptLower "do not" || includes promptLower "don't"
       || includes promptLower "block"
    then (block, "Action blocked by dynamic rule" : str)
    else (actionType, reason) in
  let actionType :=
    if includes promptLower "redirect" || includes promptLower "route to"
    then redirect
    else actionType in
  (actionType, reason).

Definition extract_tag (prompt : str) : option str :=
  match match_ true tag_pattern prompt with
  | Some tagMatch => Some (toUpperCase (group tagMatch))
  | None => None
  end.

Definition parsePrompt (stamp : Stamp) (prompt : str) : option MASUpdateRule :=
  let promptLower := toLowerCase prompt in
  let triggerKeywords := extract_keywords prompt in
  let '(actionType, reason) := classify promptLower in
  let tag := extract_tag prompt in
  Some {|
    id := "rule_" ++ now_text stamp ++ "_" ++ random_text stamp;
    prompt := prompt;
    trigger := {| keywords := triggerKeywords; intent := None |};
    action := {| type := actionType; reason := Some reason; tag := tag;
                 targetAgent := None |};
    createdAt := iso_text stamp;
    active := true
  |}.

(** ** The rule store *)

(** The state of a [DynamicRuleStore] is its private array [rules].  A rule
    object is identified by its position in the array: no operation
    reorders the array, [addRule] pushes at the end, and [deactivateRule]
    writes the [active] field of one object in place. *)
Abbreviation DynamicRuleStore := (list MASUpdateRule).

(** [rule.active = false] *)
Definition set_inactive (rule : MASUpdateRule) : MASUpdateRule :=
  {| id := id rule; prompt := prompt rule; trigger := trigger rule;
     action := action rule; createdAt := createdAt rule; active := false |}.

Definition addRule (rules : DynamicRuleStore) (stamp : Stamp) (prompt : str)
  : option MASUpdateRule * DynamicRuleStore :=
  match parsePrompt stamp prompt with
  | Some rule => (Some rule, rules ++ [rule])
  | None => (None, rules)
  end.

(** [kw => msgLower.includes(kw)] *)
Definition hit (msgLower : str) (kw : str) : bool := includes msgLower kw.

(** The loop of [checkMessage] over [this.rules]. *)
Fixpoint check_loop (msgLower : str) (rules : DynamicRuleStore)
  : option MASUpdateRule :=
  match rules with
  | [] => None
  | rule :: rest =>
      if negb (active rule) then check_loop msgLower rest
      else
        let matches := List.filter (hit msgLower) (keywords (trigger rule)) in
        if 0 <? length matches then Some rule
        else check_loop msgLower rest
  end.

Definition checkMessage (rules : DynamicRuleStore) (message : str)
  : option MASUpdateRule :=
  let msgLower := toLowerCase message in
  check_loop msgLower rules.

(** [[...this.rules]] *)
Definition getRules (rules : DynamicRuleStore) : list MASUpdateRule := rules.

(** [this.rules.find(r => r.id === ruleId)], with the position of the
    object found. *)
Definition find_rule (rules : DynamicRuleStore) (ruleId : str)
  : option (nat * MASUpdateRule) :=
  list_find (λ r, id r = ruleId) rules.

Definition deactivateRule (rules : DynamicRuleStore) (ruleId : str)
  : bool * DynamicRuleStore :=
  match find_rule rules ruleId with
  | Some (i, rule) => (true, <[i := set_inactive rule]> rules)
  | None => (false, rules)
  end.

Definition clear (rules : DynamicRuleStore) : DynamicRuleStore := [].

(** The object [applyDynamicRules] returns. *)
Module Applied.
Record t : Type := {
  blocked : bool;
  escalate : bool;
  tag : option str;
  reason : option str;
  rule : option MASUpdateRule
}.
End Applied.

(** [===] on the string literals of the action type *)
Definition ActionType_eqb (a b : ActionType) : bool :=
  match a, b with
  | escalate, escalate | block, block | redirect, redirect
  | modify_response, modify_response => true
  | _, _ => false
  end.

Definition applyDynamicRules (dynamicRules : DynamicRuleStore) (message : str)
  : Applied.t :=
  match checkMessage dynamicRules message with
  | None =>
      {| Applied.blocked := false; Applied.escalate := false;
         Applied.tag := None; Applied.reason := None; Applied.rule := None |}
  | Some matchedRule =>
      {| Applied.blocked := ActionType_eqb (type (action matchedRule)) block;
         Applied.escalate := ActionType_eqb (type (action matchedRule)) escalate;
         Applied.tag := tag (action matchedRule);
         Applied.reason := reason (action matchedRule);
         Applied.rule := Some matchedRule |}
  end.

(** The mutating operations of the store, and the states a store reaches
    from its initial empty array. *)
Inductive Op : Type :=
  | OpAdd (stamp : Stamp) (prompt : str)
  | OpDeactivate (ruleId : str)
  | OpClear.

Definition step (rules : DynamicRuleStore) (op : Op) : DynamicRuleStore :=
  match op with
  | OpAdd stamp prompt => snd (addRule rules stamp prompt)
  | OpDeactivate ruleId => snd (deactivateRule rules ruleId)
  | OpClear => clear rules
  end.

Definition run_ops (rules : DynamicRuleStore) (ops : list Op) : DynamicRuleStore :=
  foldl step rules ops.

Definition reachable (rules : DynamicRuleStore) : Prop :=
  ∃ ops, rules = run_ops [] ops.

(** ** Notions used to state the properties *)

(** [t] occurs in [s] as a substring. *)
Definition occurs (t s : str) : Prop := ∃ pre post, s = pre ++ t ++ post.

Definition lowercase (s : str) : Prop := toLowerCase s = s.


(** The test the loop of [checkMessage] makes on one rule. *)
Definition fires (msgLower : str) (r : MASUpdateRule) : bool :=
  active r && existsb (hit msgLower) (keywords (trigger r)).

(** The result of [applyDynamicRules] when no rule matched. *)
Definition no_match : Applied.t :=
  {| Applied.blocked := false; Applied.escalate := false;
     Applied.tag := None; Applied.reason := None; Applied.rule := None |}.

(** ** The "mark as" phrase, as the specification words it

    The phrase is: the word mark, white space, optionally the word as and
    white space, optionally a quote, then a run of letters and underscores.
    These definitions do not use the matcher; [extract_tag] is compared
    with them below. *)

Definition is_tag_char (c : ascii) : bool :=
  in_range 65 90 c || in_range 97 122 c || Ascii.eqb c "_".

Definition is_quote (c : ascii) : bool :=
  Ascii.eqb c "'" || Ascii.eqb c "034".

(** The first character of [s], if any, is not in [p]. *)
Definition starts_outside (p : ascii → bool) (s : str) : Prop :=
  match s with
  | c :: _ => p c = false
  | [] => True
  end.

(** The longest prefix of [s] made of characters in [p], and what follows
    it. *)
Fixpoint take_run (p : ascii → bool) (s : str) : str :=
  match s with
  | c :: s' => if p c then c :: take_run p s' else []
  | [] => []
  end.

Fixpoint after_run (p : ascii → bool) (s : str) : str :=
  match s with
  | c :: s' => if p c then after_run p s' else s
  | [] => []
  end.

(** [s] after the word [w] at its front, compared up to letter case. *)
Definition after_word (w s : str) : option str :=
  if decide (toLowerCase (take (length w) s) = toLowerCase w)
  then Some (drop (length w) s)
  else None.

(** [s] after the white space at its front, of which there must be some. *)
Definition after_spaces (s : str) : option str :=
  match s with
  | c :: s' => if is_space c then Some (after_run is_space s') else None
  | [] => None
  end.

Definition after_quote (s : str) : str :=
  match s with
  | c :: s' => if is_quote c then s' else s
  | [] => []
  end.

(** An optional quote, then a non-empty run of letters and underscores. *)
Definition quoted_run (s : str) : option str :=
  match take_run is_tag_char (after_quote s) with
  | [] => None
  | run => Some run
  end.

(** The word as, white space, and the quoted run. *)
Definition as_run (s : str) : option str :=
  match after_word "as" s with
  | Some s1 =>
      match after_spaces s1 with
      | Some s2 => quoted_run s2
      | None => None
      end
  | None => None
  end.

(** The run of the phrase at the front of [s]; the reading with "as" is
    preferred to the one that takes "as" as the run. *)
Definition phrase_run (s : str) : option str :=
  match after_word "mark" s with
  | Some s1 =>
      match after_spaces s1 with
      | Some s2 =>
          match as_run s2 with
          | Some run => Some run
          | None => quoted_run s2
          end
      | None => None
      end
  | None => None
  end.

(** The run of the first phrase of [s], from the left. *)
Fixpoint first_phrase_run (s : str) : option str :=
  match phrase_run s with
  | Some run => Some run
  | None =>
      match s with
      | [] => None
      | _ :: s' => first_phrase_run s'
      end
  end.

(** [w] is a phrase with run [run]. *)
Definition mark_phrase (w run : str) : Prop :=
  ∃ m sp a q,
    w = m ++ sp ++ a ++ q ++ run ∧
    toLowerCase m = "mark" ∧
    sp ≠ [] ∧ Forall (λ c, is_space c = true) sp ∧
    (a = [] ∨ ∃ a1 sp2, a = a1 ++ sp2 ∧ toLowerCase a1 = "as" ∧
                        sp2 ≠ [] ∧ Forall (λ c, is_space c = true) sp2) ∧
    (q = [] ∨ ∃ c, q = [c] ∧ is_quote c = true) ∧
    run ≠ [] ∧ Forall (λ c, is_tag_char c = true) run.

Definition has_phrase (prompt : str) : Prop :=
  ∃ pre w run post, prompt = pre ++ w ++ post ∧ mark_phrase w run.

(** ** Sample data *)

Definition sample_stamp : Stamp :=
  {| now_text := "1767225600000"; random_text := "k3f9";
     iso_text := "2026-01-01T00:00:00.000Z" |}.

Definition sample_rule (n : str) (kws : list str) (t : ActionType) (a : bool)
  : MASUpdateRule :=
  {| id := "rule_" ++ n; prompt := [];
     trigger := {| keywords := kws; intent := None |};
     action := {| type := t; reason := Some ("Dynamic rule triggered" : str);
                  tag := None; targetAgent := None |};
     createdAt := iso_text sample_stamp; active := a |}.

Definition R1 : MASUpdateRule :=
  sample_rule "1" ["address" : str] escalate true.

Definition R2 : MASUpdateRule :=
  sample_rule "2" ["address" : str; "update" : str] block true.

(** The empty prompt, and a rule without keywords as [parsePrompt] builds
    it from the empty prompt. *)
Definition empty_prompt : str := [].

Definition R0 : MASUpdateRule := sample_rule "0" [] escalate true.


(** The least number of code units a match of [r] takes. *)
Fixpoint min_len (r : regex) : nat :=
  match r with
  | Eps => 0
  | Chr _ => 1
  | Cls _ _ => 1
  | Seq r1 r2 => min_len r1 + min_len r2
  | Alt r1 r2 => min_len r1 `min` min_len r2
  | Opt _ => 0
  | Plus _ _ => 1
  | Grp r1 => min_len r1
  end.

(** [r] is what [parsePrompt] makes of its stored prompt, whatever its id,
    its creation time and its [active] flag. *)
Definition parsed_from_prompt (r : MASUpdateRule) : Prop :=
  keywords (trigger r) = extract_keywords (prompt r) ∧
  intent (trigger r) = None ∧
  type (action r) = fst (classify (toLowerCase (prompt r))) ∧
  reason (action r) = Some (snd (classify (toLowerCase (prompt r)))) ∧
  tag (action r) = extract_tag (prompt r) ∧
  targetAgent (action r) = None.

(** A second rule with the id of [R1]. *)
Definition R1_twin : MASUpdateRule :=
  sample_rule "1" ["update" : str] block true.

(** ** The console of scripts/playground.ts *)

(** What the callback of [rl.question] does with one line of input: the
    function it calls, with its argument.  [CmdNone] is the line on which
    no branch is taken. *)
Inductive Command : Type :=
  | CmdQuit                   (* process.exit(0) *)
  | CmdScenarios              (* printScenarios() *)
  | CmdRun (num : str)        (* runScenario(num) *)
  | CmdNew (email : str)      (* startSession(email) *)
  | CmdTrace                  (* printTrace() *)
  | CmdMemory                 (* printMemory() *)
  | CmdStatus                 (* printStatus() *)
  | CmdHelp                   (* printHeader() *)
  | CmdSend (message : str)   (* sendMessage(message) *)
  | CmdNone.

(** [s === t] on strings *)
Definition str_eqb (s t : str) : bool := bool_decide (s = t).

Definition command (input : str) : Command :=
  let trimmed := trim input in
  if str_eqb trimmed "/quit" || str_eqb trimmed "/exit" then CmdQuit
  else if str_eqb trimmed "/scenarios" then CmdScenarios
  else if startsWith trimmed "/run " then CmdRun (trim (drop 5 trimmed))
  else if startsWith trimmed "/new " then CmdNew (trim (drop 5 trimmed))
  else if str_eqb trimmed "/trace" then CmdTrace
  else if str_eqb trimmed "/memory" then CmdMemory
  else if str_eqb trimmed "/status" then CmdStatus
  else if str_eqb trimmed "/help" then CmdHelp
  else if (0 <? length trimmed) && negb (startsWith trimmed "/")
       then CmdSend trimmed
  else CmdNone.

(** [sendMessage(message)]: the arguments of the call
    [runtime.handleMessage(currentSession, message)] it makes; it makes
    none when [currentSession] is null or the empty string. *)
Definition sendMessage (currentSession : option str) (message : str)
  : option (str * str) :=
  match currentSession with
  | Some (c :: session) => Some (c :: session, message)
  | _ => None
  end.

(** The call of [runtime.handleMessage] to which the last branch of the
    callback leads for one line of input, in a console whose session is
    [currentSession].  This is the one branch that hands the text of the
    line to [sendMessage]. *)
Definition typed_line_handled (currentSession : option str) (input : str)
  : option (str * str) :=
  match command input with
  | CmdSend message => sendMessage currentSession message
  | _ => None
  end.

(** ** The mock LLM clients of the scripts *)

(** A chat message; [content] may be missing. *)
Record ChatMessage : Type := {
  role : str;
  content : option str
}.

(** [messages.filter(m => m.role === 'user').pop()] *)
Definition lastUser (messages : list ChatMessage) : option ChatMessage :=
  last (List.filter (λ m, str_eqb (role m) "user") messages).

(** [(lastUser?.content || '').toLowerCase()] *)
Definition lastUserContent (messages : list ChatMessage) : str :=
  toLowerCase
    (match lastUser messages with
     | Some m => default [] (content m)
     | None => []
     end).

Definition mentions_human (content : str) : bool :=
  includes content "human" || includes content "manager"
  || includes content "supervisor" || includes content "real person".

(** [chat] of [createMockLLMClient] in scripts/playground.ts: the content
    of the reply. *)
Definition playground_chat (messages : list ChatMessage) : str :=
  let content := lastUserContent messages in
  if mentions_human content
  then "I understand you would like to speak with a human agent. Let me escalate this for you."
  else if includes content "order" || includes content "tracking"
  then "I can help you with your order. Let me look up the details for you."
  else if includes content "cancel" || includes content "subscription"
  then "I can help you with your subscription. Let me check your account."
  else if includes content "refund"
  then "I can help process your refund request. Let me look into this."
  else if includes content "address"
  then "I can help update your shipping address."
  else "I understand your request. How can I assist you further?".

(** [chat] of [createMockLLMClient] in the judge script. *)
Definition judge_chat (messages : list ChatMessage) : str :=
  let content := lastUserContent messages in
  if mentions_human content
  then "I understand you would like to speak with a human agent. Let me escalate this for you."
  else if includes content "order" || includes content "tracking"
  then "I can help you with your order. Let me look up the details."
  else if includes content "cancel" || includes content "subscription"
  then "I can help you with your subscription request."
  else if includes content "refund"
  then "I can help process your refund request."
  else "I understand your request. Let me help you with that.".

(** Sample chat messages. *)
Definition system_message : ChatMessage :=
  {| role := "system"; content := Some ("You are a support agent" : str) |}.

Definition user_message : ChatMessage :=
  {| role := "user"; content := Some ("I want a HUMAN, not my order" : str) |}.

Definition agent_message : ChatMessage :=
  {| role := "assistant"; content := None |}.

(** ** Strings *)

Lemma startsWith_spec (s t : str) :
  startsWith s t = true ↔ ∃ post, s = t ++ post.
Proof.
  revert s. induction t as [|b t IH]; intros s; simpl.
  - split; [intros _; by exists s | done].
  - destruct s as [|a s].
    + split; [done | intros [post H]; discriminate].
    + rewrite andb_true_iff, IH, Ascii.eqb_eq. split.
      * intros [-> [post ->]]. by exists post.
      * intros [post H]. injection H as -> ->. eauto.
Qed.

Lemma includes_spec (s t : str) : includes s t = true ↔ occurs t s.
Proof.
  unfold occurs. induction s as [|a s IH]; simpl.
  - rewrite orb_false_r, startsWith_spec. split.
    + intros [post H]. by exists [], post.
    + intros [pre [post H]]. destruct pre; [by exists post|discriminate].
  - rewrite orb_true_iff, startsWith_spec, IH. split.
    + intros [[post H] | [pre [post H]]].
      * by exists [], post.
      * exists (a :: pre), post. by rewrite H.
    + intros [[|a' pre] [post H]].
      * left. by exists post.
      * right. injection H as -> ->. by exists pre, post.
Qed.

Lemma lower_char_idemp (c : ascii) : lower_char (lower_char c) = lower_char c.
Proof. destruct c as [[] [] [] [] [] [] [] []]; vm_compute; reflexivity. Qed.

Lemma toLowerCase_app (s t : str) :
  toLowerCase (s ++ t) = toLowerCase s ++ toLowerCase t.
Proof. apply map_app. Qed.

Lemma toLowerCase_length (s : str) : length (toLowerCase s) = length s.
Proof. apply length_map. Qed.

Lemma includes_false (s t : str) : includes s t = false ↔ ¬ occurs t s.
Proof. rewrite <- includes_spec. by destruct (includes s t). Qed.

(** What [includes] on the lowercased message decides. *)
Lemma hit_occurs (msgLower kw : str) :
  hit msgLower kw = true ↔ occurs kw msgLower.
Proof. unfold hit. apply includes_spec. Qed.

Lemma occurs_trans (a b c : str) : occurs a b → occurs b c → occurs a c.
Proof.
  intros (p1 & q1 & ->) (p2 & q2 & ->).
  exists (p2 ++ p1), (q1 ++ q2). by rewrite <- !app_assoc.
Qed.

(** ** [checkMessage] *)

Lemma filter_hits_existsb {A} (f : A → bool) (l : list A) :
  (0 <? length (List.filter f l)) = existsb f l.
Proof.
  induction l as [|x l IH]; simpl; [done|]. by destruct (f x).
Qed.

(** The loop returns the first rule, in array order, on which its test
    succeeds. *)
Lemma check_loop_find (msgLower : str) (rules : DynamicRuleStore) :
  check_loop msgLower rules
  = snd <$> list_find (λ r, fires msgLower r = true) rules.
Proof.
  induction rules as [|r rules IH]; simpl; [done|].
  rewrite filter_hits_existsb, IH.
  case_decide as Hf; unfold fires in Hf.
  - apply andb_true_iff in Hf as [-> ->]. done.
  - destruct (active r); simpl in *.
    + destruct (existsb _ _); [done|].
      by destruct (list_find _ rules) as [[??]|].
    + by destruct (list_find _ rules) as [[??]|].
Qed.

Lemma check_loop_active (msgLower : str) (rules : DynamicRuleStore) r :
  check_loop msgLower rules = Some r → fires msgLower r = true.
Proof.
  rewrite check_loop_find. destruct (list_find _ rules) as [[i r']|] eqn:E; [|done].
  simpl. intros [= ->]. by apply list_find_Some in E as (_ & ? & _).
Qed.




(** ** The keywords [parsePrompt] produces are lower case *)

Section Preserved.
Variable P : ascii → Prop.

Lemma remove_from_Forall ic r skip (s : str) :
  Forall P s → Forall P (remove_from ic r skip s).
Proof.
  intros H. revert skip. induction H as [|c s Hc Hs IH]; intros skip; simpl.
  - constructor.
  - destruct skip; [|by apply IH].
    destruct (exec_at ic r (c :: s)) as [[[w ?] ?]|].
    + destruct (length w); [constructor; auto | auto].
    + constructor; auto.
Qed.

Lemma split_from_Forall ic r skip (cur s : str) :
  Forall P cur → Forall P s →
  Forall (Forall P) (split_from ic r skip cur s).
Proof.
  intros Hcur H. revert skip cur Hcur.
  induction H as [|c s Hc Hs IH]; intros skip cur Hcur; simpl.
  - constructor; [|constructor]. by apply Forall_rev.
  - destruct skip; [|by apply IH].
    destruct (exec_at ic r (c :: s)) as [[[w ?] ?]|].
    + destruct (length w), cur; try (constructor; [by apply Forall_rev|]);
        apply IH; repeat constructor; auto.
    + apply IH. constructor; auto.
Qed.

Lemma split_Forall ic r (s : str) :
  Forall P s → Forall (Forall P) (split ic r s).
Proof.
  intros H. destruct s as [|c s]; simpl.
  - destruct (exec_at ic r []); repeat constructor.
  - apply (split_from_Forall ic r 0 [] (c :: s)); [constructor | done].
Qed.

Lemma trimStart_Forall (s : str) : Forall P s → Forall P (trimStart s).
Proof.
  induction 1 as [|c s Hc Hs IH]; simpl; [constructor|].
  destruct (is_space c); [done | by constructor].
Qed.

Lemma trim_Forall (s : str) : Forall P s → Forall P (trim s).
Proof.
  intros H. unfold trim, trimEnd.
  by apply Forall_rev, trimStart_Forall, Forall_rev, trimStart_Forall.
Qed.

Lemma filter_Forall2 (f : str → bool) (l : list str) :
  Forall (Forall P) l → Forall (Forall P) (List.filter f l).
Proof.
  induction 1 as [|x l Hx Hl IH]; simpl; [constructor|].
  destruct (f x); [by constructor | done].
Qed.
End Preserved.

Lemma toLowerCase_fixed (s : str) : Forall (λ c, lower_char c = c) (toLowerCase s).
Proof.
  unfold toLowerCase. apply Forall_forall. intros c Hc.
  apply list_elem_of_In, in_map_iff in Hc as (c' & <- & _). apply lower_char_idemp.
Qed.

Lemma fixed_lowercase (s : str) : Forall (λ c, lower_char c = c) s → lowercase s.
Proof.
  unfold lowercase, toLowerCase. induction 1 as [|c s Hc Hs IH]; simpl; [done|].
  by rewrite Hc, IH.
Qed.

Lemma clause_words_lowercase (clause : str) :
  Forall lowercase (clause_words clause).
Proof.
  eapply Forall_impl; [|apply fixed_lowercase].
  unfold clause_words.
  apply filter_Forall2, split_Forall, trim_Forall, remove_from_Forall,
    toLowerCase_fixed.
Qed.

Lemma fallback_words_lowercase (prompt : str) :
  Forall lowercase (fallback_words (toLowerCase prompt)).
Proof.
  eapply Forall_impl; [|apply fixed_lowercase].
  unfold fallback_words.
  apply Forall_take, filter_Forall2, split_Forall, remove_from_Forall,
    toLowerCase_fixed.
Qed.

Lemma scan_patterns_lowercase patterns (prompt : str) :
  Forall lowercase (scan_patterns patterns prompt []).
Proof.
  induction patterns as [|p ps IH]; simpl; [constructor|].
  destruct (match_ true p prompt); [apply clause_words_lowercase | done].
Qed.

Lemma extract_keywords_lowercase (prompt : str) :
  Forall lowercase (extract_keywords prompt).
Proof.
  unfold extract_keywords.
  destruct (_ =? 0); [apply fallback_words_lowercase | apply scan_patterns_lowercase].
Qed.

(** [parsePrompt] never returns null. *)
Lemma parsePrompt_total (stamp : Stamp) (prompt : str) :
  ∃ rule, parsePrompt stamp prompt = Some rule ∧
          keywords (trigger rule) = extract_keywords prompt ∧
          type (action rule) = fst (classify (toLowerCase prompt)) ∧
          tag (action rule) = extract_tag prompt ∧
          active rule = true.
Proof.
  unfold parsePrompt. destruct (classify (toLowerCase prompt)) as [a rs].
  eexists. split; [reflexivity|]. done.
Qed.



(** ** [applyDynamicRules] and rules without keywords *)

Lemma check_loop_app (msgLower : str) (l1 l2 : DynamicRuleStore) :
  check_loop msgLower (l1 ++ l2)
  = match check_loop msgLower l1 with
    | Some r => Some r
    | None => check_loop msgLower l2
    end.
Proof.
  induction l1 as [|r l1 IH]; simpl; [done|].
  destruct (negb (active r)); [done|].
  by destruct (0 <? length _).
Qed.

(** C8. For every message and every store state the result of
    [applyDynamicRules] never has [blocked] and [escalate] both true. *)
Theorem blocked_escalate_exclusive (rules : DynamicRuleStore) (message : str) :
  ¬ (Applied.blocked (applyDynamicRules rules message) = true ∧
     Applied.escalate (applyDynamicRules rules message) = true).
Proof.
  unfold applyDynamicRules.
  destruct (checkMessage rules message) as [r|]; simpl.
  - destruct (type (action r)); simpl; intros [??]; discriminate.
  - intros [??]; discriminate.
Qed.

(** C9. A stored rule whose keyword array is empty is never returned by
    [checkMessage], for any message and whatever its [active] flag: the
    store answers as if the rule were not there. *)
Theorem empty_keywords_never_match
    (pre post : DynamicRuleStore) (r : MASUpdateRule) (message : str) :
  keywords (trigger r) = [] →
  checkMessage (pre ++ r :: post) message ≠ Some r ∧
  checkMessage (pre ++ r :: post) message = checkMessage (pre ++ post) message.
Proof.
  intros Hk. split.
  - intros H. apply check_loop_active in H. unfold fires in H.
    rewrite Hk in H. simpl in H. by rewrite andb_false_r in H.
  - unfold checkMessage. rewrite !check_loop_app. simpl. rewrite Hk. simpl.
    by destruct (negb (active r)).
Qed.

Lemma empty_keywords_never_match_witness :
  keywords (trigger R0) = [] ∧
  checkMessage ([R1] ++ R0 :: [R2]) "please help" ≠ Some R0 ∧
  checkMessage ([R1] ++ R0 :: [R2]) "please help"
  = checkMessage ([R1] ++ [R2]) "please help".
Proof.
  split; [reflexivity|].
  apply (empty_keywords_never_match [R1] [R2] R0 "please help"). reflexivity.
Defined.

(** The claim C10 as stated fails: the keyword address of the active rule
    R1 does not occur as a substring of the message "My ADDRESS changed",
    yet the rule matches, because the message is lowercased before the
    search: [applyDynamicRules] answers with [escalate] true and the
    rule. *)
Lemma applyDynamicRules_no_match_counterexample :
  (∀ r kw, r ∈ [R1] → active r = true → kw ∈ keywords (trigger r) →
           ¬ occurs kw "My ADDRESS changed") ∧
  Applied.escalate (applyDynamicRules [R1] "My ADDRESS changed") = true ∧
  Applied.rule (applyDynamicRules [R1] "My ADDRESS changed") = Some R1 ∧
  applyDynamicRules [R1] "My ADDRESS changed" ≠ no_match.
Proof.
  split.
  - intros r kw Hr _ Hkw.
    apply list_elem_of_singleton in Hr as ->.
    apply list_elem_of_singleton in Hkw as ->.
    apply includes_false. vm_compute. reflexivity.
  - split; [vm_compute; reflexivity|]. split; [vm_compute; reflexivity|].
    vm_compute. discriminate.
Qed.

(** C10, amended. For every message whose lowercased text contains no
    keyword of an active rule as a substring, [applyDynamicRules] returns
    exactly [{ blocked: false, escalate: false }], with [tag], [reason] and
    [rule] absent. *)
Theorem applyDynamicRules_no_hit (rules : DynamicRuleStore) (message : str) :
  (∀ r kw, r ∈ rules → active r = true → kw ∈ keywords (trigger r) →
           ¬ occurs kw (toLowerCase message)) →
  applyDynamicRules rules message = no_match.
Proof.
  intros H. unfold applyDynamicRules.
  destruct (checkMessage rules message) as [r|] eqn:E; [exfalso|done].
  unfold checkMessage in E.
  assert (Hin : r ∈ rules).
  { rewrite check_loop_find in E.
    destruct (list_find _ rules) as [[i r']|] eqn:F; [|done].
    injection E as ->. apply list_find_Some in F as (Hi & _).
    by eapply list_elem_of_lookup_2. }
  apply check_loop_active in E. unfold fires in E.
  apply andb_true_iff in E as [Ha (kw & Hkw & Hhit)%existsb_exists].
  apply (H r kw); [done | done | by apply list_elem_of_In | by apply hit_occurs].
Qed.

(** ** [addRule] *)

Lemma addRule_appends (rules : DynamicRuleStore) (stamp : Stamp) (prompt : str) :
  ∃ rule, parsePrompt stamp prompt = Some rule ∧
          addRule rules stamp prompt = (Some rule, rules ++ [rule]).
Proof.
  destruct (parsePrompt_total stamp prompt) as (rule & H & _).
  exists rule. split; [done|]. unfold addRule. by rewrite H.
Qed.

(** C2, as the code has it.  Rule creation is never rejected: for every
    prompt, also one from which keyword extraction yields no keywords,
    [addRule] returns the parsed rule (not null) and pushes it onto the
    store with [active = true] and the extracted keywords, so a prompt
    without keywords stores an active rule with an empty keyword array. *)
Theorem addRule_never_rejects
    (rules : DynamicRuleStore) (stamp : Stamp) (prompt : str) :
  ∃ rule,
    addRule rules stamp prompt = (Some rule, rules ++ [rule]) ∧
    active rule = true ∧
    keywords (trigger rule) = extract_keywords prompt ∧
    (extract_keywords prompt = [] →
     rule ∈ getRules (snd (addRule rules stamp prompt)) ∧
     active rule = true ∧ keywords (trigger rule) = []).
Proof.
  destruct (parsePrompt_total stamp prompt) as (rule & H & Hk & _ & _ & Ha).
  exists rule. unfold addRule. rewrite H. simpl.
  repeat split; try done.
  - unfold getRules. apply elem_of_app. right. by apply list_elem_of_singleton.
  - congruence.
Qed.

(** ** [deactivateRule] *)

Lemma set_inactive_fixed (r : MASUpdateRule) :
  active r = false → set_inactive r = r.
Proof. destruct r; simpl; by intros ->. Qed.

(** The operations other than [clear] leave an inactive rule object where it
    is. *)
Lemma step_keeps_inactive (rules : DynamicRuleStore) (op : Op) i r :
  op ≠ OpClear → rules !! i = Some r → active r = false →
  step rules op !! i = Some r.
Proof.
  intros Hop Hi Ha. destruct op as [stamp prompt | ruleId |]; simpl; [| |done].
  - destruct (addRule_appends rules stamp prompt) as (rule & _ & ->). simpl.
    by apply lookup_app_l_Some.
  - unfold deactivateRule.
    destruct (find_rule rules ruleId) as [[j r0]|] eqn:E; [|done]. simpl.
    apply list_find_Some in E as (Hj & _ & _).
    destruct (decide (j = i)) as [->|Hne].
    + rewrite list_lookup_insert_eq by (by eapply lookup_lt_Some).
      assert (r0 = r) as -> by congruence. by rewrite set_inactive_fixed.
    + by rewrite list_lookup_insert_ne.
Qed.

Lemma run_ops_keeps_inactive (ops : list Op) (rules : DynamicRuleStore) i r :
  Forall (λ op, op ≠ OpClear) ops → rules !! i = Some r → active r = false →
  run_ops rules ops !! i = Some r.
Proof.
  unfold run_ops. intros Hops. revert rules.
  induction Hops as [|op ops Hop Hops IH]; intros rules Hi Ha; simpl; [done|].
  apply IH; [|done]. by apply step_keeps_inactive.
Qed.

Lemma checkMessage_returns_active (rules : DynamicRuleStore) (message : str) r :
  checkMessage rules message = Some r → active r = true.
Proof.
  intros H. apply check_loop_active in H. unfold fires in H.
  by apply andb_true_iff in H as [? _].
Qed.

(** C6. [deactivateRule(id)] returns true exactly when a rule with that id
    is in the store.  On success the first rule with that id has its
    [active] field set to false and no other field changed, no rule is
    removed and every other rule is unchanged; the rule still appears in
    [getRules()], stays in place under later [addRule] and [deactivateRule]
    calls, and is never returned by [checkMessage] after any later
    operations, for any message. *)
Theorem deactivateRule_soft_delete (rules : DynamicRuleStore) (ruleId : str) :
  (fst (deactivateRule rules ruleId) = true ↔ ∃ r, r ∈ rules ∧ id r = ruleId) ∧
  (fst (deactivateRule rules ruleId) = false →
   snd (deactivateRule rules ruleId) = rules) ∧
  (fst (deactivateRule rules ruleId) = true →
   ∃ i r r',
     rules !! i = Some r ∧ id r = ruleId ∧
     (∀ j x, j < i → rules !! j = Some x → id x ≠ ruleId) ∧
     snd (deactivateRule rules ruleId) !! i = Some r' ∧
     active r' = false ∧ id r' = id r ∧ prompt r' = prompt r ∧
     trigger r' = trigger r ∧ action r' = action r ∧
     createdAt r' = createdAt r ∧
     length (snd (deactivateRule rules ruleId)) = length rules ∧
     (∀ j, j ≠ i → snd (deactivateRule rules ruleId) !! j = rules !! j) ∧
     getRules (snd (deactivateRule rules ruleId)) !! i = Some r' ∧
     (∀ ops, Forall (λ op, op ≠ OpClear) ops →
             getRules (run_ops (snd (deactivateRule rules ruleId)) ops) !! i
             = Some r') ∧
     (∀ ops message,
        checkMessage (run_ops (snd (deactivateRule rules ruleId)) ops) message
        ≠ Some r')).
Proof.
  unfold deactivateRule.
  destruct (find_rule rules ruleId) as [[i r]|] eqn:E; simpl.
  - apply list_find_Some in E as (Hi & Hid & Hbefore).
    assert (Hlt : i < length rules) by (by eapply lookup_lt_Some).
    split; [|split; [done|]].
    { split; [intros _ | done]. exists r. split; [|done].
      by eapply list_elem_of_lookup_2. }
    intros _. exists i, r, (set_inactive r).
    assert (Hnew : <[i:=set_inactive r]> rules !! i = Some (set_inactive r))
      by (by apply list_lookup_insert_eq).
    repeat split; try done.
    + intros j x Hj Hx. by eapply Hbefore.
    + apply length_insert.
    + intros j Hj. by apply list_lookup_insert_ne.
    + intros ops Hops. by apply run_ops_keeps_inactive.
    + intros ops message H. by apply checkMessage_returns_active in H.
  - apply list_find_None in E.
    split; [|split; [done | intros [=]]].
    split; [intros [=]|]. intros (r & Hr & Hid). exfalso.
    by apply (proj1 (Forall_forall _ _) E r).
Qed.

(** ** [parsePrompt]: the action type *)

Lemma classify_type (promptLower : str) :
  fst (classify promptLower)
  = if includes promptLower "redirect" || includes promptLower "route to"
    then redirect
    else if includes promptLower "do not" || includes promptLower "don't"
            || includes promptLower "block"
         then block
         else escalate.
Proof.
  unfold classify.
  destruct (includes promptLower "escalate" || includes promptLower "needs_attention");
    destruct (includes promptLower "do not" || includes promptLower "don't"
              || includes promptLower "block");
    by destruct (includes promptLower "redirect" || includes promptLower "route to").
Qed.

(** C3, as the code has it.  For every prompt whose lowercased text
    contains both an ESCALATE-family phrase and a BLOCK-family phrase, the
    action type is BLOCK when the text contains neither "redirect" nor
    "route to", and REDIRECT when it contains one of them: the last of the
    three tests that succeeds decides. *)
Theorem block_wins_over_escalate (stamp : Stamp) (prompt : str) :
  occurs "escalate" (toLowerCase prompt) ∨
  occurs "needs_attention" (toLowerCase prompt) →
  occurs "do not" (toLowerCase prompt) ∨ occurs "don't" (toLowerCase prompt) ∨
  occurs "block" (toLowerCase prompt) →
  ∃ rule, parsePrompt stamp prompt = Some rule ∧
    (¬ occurs "redirect" (toLowerCase prompt) ∧
     ¬ occurs "route to" (toLowerCase prompt) →
     type (action rule) = block) ∧
    (occurs "redirect" (toLowerCase prompt) ∨
     occurs "route to" (toLowerCase prompt) →
     type (action rule) = redirect).
Proof.
  intros _ Hblock.
  destruct (parsePrompt_total stamp prompt) as (rule & H & _ & Ht & _).
  exists rule. split; [done|]. rewrite Ht, classify_type. split.
  - intros [Hr1%includes_false Hr2%includes_false]. rewrite Hr1, Hr2. cbn [orb].
    destruct Hblock as [Hb%includes_spec | [Hb%includes_spec | Hb%includes_spec]];
      rewrite Hb; cbn [orb]; by rewrite ?orb_true_r.
  - intros [Hr%includes_spec | Hr%includes_spec]; rewrite Hr; cbn [orb];
      by rewrite ?orb_true_r.
Qed.

Lemma block_wins_over_escalate_witness :
  (occurs "escalate" (toLowerCase "Do not escalate refunds, block them") ∨
   occurs "needs_attention" (toLowerCase "Do not escalate refunds, block them")) ∧
  (occurs "do not" (toLowerCase "Do not escalate refunds, block them") ∨
   occurs "don't" (toLowerCase "Do not escalate refunds, block them") ∨
   occurs "block" (toLowerCase "Do not escalate refunds, block them")) ∧
  ∃ rule,
    parsePrompt sample_stamp "Do not escalate refunds, block them" = Some rule ∧
    type (action rule) = block.
Proof.
  assert (H1 : occurs "escalate"
                 (toLowerCase "Do not escalate refunds, block them"))
    by (apply includes_spec; vm_compute; reflexivity).
  assert (H2 : occurs "do not"
                 (toLowerCase "Do not escalate refunds, block them"))
    by (apply includes_spec; vm_compute; reflexivity).
  split; [left; exact H1|]. split; [left; exact H2|].
  destruct (block_wins_over_escalate sample_stamp
              "Do not escalate refunds, block them"
              (or_introl H1) (or_introl H2))
    as (rule & H & Hb & _).
  exists rule. split; [exact H|]. apply Hb.
  split; apply includes_false; vm_compute; reflexivity.
Defined.

(** The claim C3 as stated fails: a prompt with an ESCALATE-family phrase
    and a BLOCK-family phrase that also says "redirect" is classified
    REDIRECT, not BLOCK. *)
Lemma block_wins_over_escalate_counterexample :
  occurs "escalate" (toLowerCase "Do not escalate billing disputes, redirect them") ∧
  occurs "do not" (toLowerCase "Do not escalate billing disputes, redirect them") ∧
  ∃ rule,
    parsePrompt sample_stamp "Do not escalate billing disputes, redirect them"
    = Some rule ∧
    type (action rule) = redirect ∧ type (action rule) ≠ block.
Proof.
  split; [apply includes_spec; vm_compute; reflexivity|].
  split; [apply includes_spec; vm_compute; reflexivity|].
  eexists. split; [reflexivity|]. split; [vm_compute; reflexivity|].
  vm_compute. discriminate.
Qed.

(** ** The refund scenario *)

Lemma refund_prompt_keywords :
  extract_keywords "Block all refund requests over $500"
  = ["block" : str; "refund" : str; "requests" : str].
Proof. vm_compute. reflexivity. Qed.

Lemma refund_prompt_type :
  fst (classify (toLowerCase "Block all refund requests over $500")) = block.
Proof. vm_compute. reflexivity. Qed.

(** C4. Adding the prompt "Block all refund requests over $500" stores a
    rule whose action type is BLOCK; when no earlier rule of the store
    matches it, the message "I want a refund" then matches that rule, on
    its keyword "refund", and [applyDynamicRules] returns [blocked = true]. *)
Theorem block_refund_scenario (rules : DynamicRuleStore) (stamp : Stamp) :
  checkMessage rules "I want a refund" = None →
  ∃ rule,
    addRule rules stamp "Block all refund requests over $500"
    = (Some rule, rules ++ [rule]) ∧
    type (action rule) = block ∧
    ("refund" : str) ∈ keywords (trigger rule) ∧
    hit (toLowerCase "I want a refund") "refund" = true ∧
    checkMessage (rules ++ [rule]) "I want a refund" = Some rule ∧
    Applied.blocked (applyDynamicRules (rules ++ [rule]) "I want a refund") = true ∧
    Applied.rule (applyDynamicRules (rules ++ [rule]) "I want a refund") = Some rule.
Proof.
  intros Hnone.
  destruct (parsePrompt_total stamp "Block all refund requests over $500")
    as (rule & H & Hk & Ht & _ & Ha).
  rewrite refund_prompt_keywords in Hk. rewrite refund_prompt_type in Ht.
  assert (Hc : checkMessage (rules ++ [rule]) "I want a refund" = Some rule).
  { unfold checkMessage in *. rewrite check_loop_app, Hnone. simpl.
    by rewrite Ha, Hk. }
  exists rule. unfold addRule. rewrite H.
  split; [done|]. split; [done|]. split.
  { rewrite Hk. apply elem_of_cons. right. apply elem_of_cons. by left. }
  split; [vm_compute; reflexivity|]. split; [done|].
  unfold applyDynamicRules. rewrite Hc. simpl. by rewrite Ht.
Qed.

Lemma block_refund_scenario_witness :
  checkMessage [] "I want a refund" = None ∧
  ∃ rule,
    addRule [] sample_stamp "Block all refund requests over $500"
    = (Some rule, [rule]) ∧
    type (action rule) = block ∧
    Applied.blocked (applyDynamicRules [rule] "I want a refund") = true.
Proof.
  split; [reflexivity|].
  destruct (block_refund_scenario [] sample_stamp)
    as (rule & Hadd & Ht & _ & _ & _ & Hb & _); [reflexivity|].
  exists rule. split; [exact Hadd|]. split; [exact Ht | exact Hb].
Defined.

(** The claim C2 as stated fails: the empty prompt yields no keywords, and
    [addRule] returns a rule and stores it with [active = true]. *)
Lemma addRule_rejects_counterexample :
  extract_keywords empty_prompt = [] ∧
  ∃ rule,
    addRule [] sample_stamp empty_prompt = (Some rule, [rule]) ∧
    active rule = true ∧ keywords (trigger rule) = [].
Proof.
  split; [vm_compute; reflexivity|].
  eexists. split; [reflexivity|]. split; vm_compute; reflexivity.
Qed.

Lemma addRule_never_rejects_witness :
  extract_keywords "the a an" = [] ∧
  ∃ rule,
    addRule [R1] sample_stamp "the a an" = (Some rule, [R1] ++ [rule]) ∧
    active rule = true ∧ keywords (trigger rule) = [].
Proof.
  assert (He : extract_keywords "the a an" = []) by (vm_compute; reflexivity).
  split; [exact He|].
  destruct (addRule_never_rejects [R1] sample_stamp "the a an")
    as (rule & Hadd & Ha & _ & Hempty).
  exists rule. split; [exact Hadd|]. split; [exact Ha|].
  apply (Hempty He).
Defined.

(** ** The matcher on the tag pattern *)

Lemma space_class (c : ascii) : cls_match true false white_space c = is_space c.
Proof. destruct c as [[] [] [] [] [] [] [] []]; vm_compute; reflexivity. Qed.

Lemma tag_class (c : ascii) :
  cls_match true false (chars_between "A" "Z" ++ ["_"%char]) c = is_tag_char c.
Proof. destruct c as [[] [] [] [] [] [] [] []]; vm_compute; reflexivity. Qed.

Lemma quote_class (c : ascii) :
  cls_match true false ["'"%char; "034"%char] c = is_quote c.
Proof. destruct c as [[] [] [] [] [] [] [] []]; vm_compute; reflexivity. Qed.

Lemma all_chars_complete (c : ascii) : In c all_chars.
Proof.
  unfold all_chars. apply in_map_iff. exists (nat_of_ascii c).
  split; [apply ascii_nat_embedding|].
  apply in_seq. pose proof (nat_ascii_bounded c). lia.
Qed.

Lemma forall_chars (P : ascii → bool) :
  forallb P all_chars = true → ∀ c, P c = true.
Proof.
  intros H c. by apply (proj1 (forallb_forall P all_chars) H), all_chars_complete.
Qed.

(** A property of characters, decided on each of the 256 code units. *)
Ltac by_enumeration := apply forall_chars; vm_compute; reflexivity.

(** Under the [i] flag a letter of the pattern matches its two cases. *)
Lemma chr_match_lower (c ch : ascii) :
  in_range 97 122 c = true →
  chr_match true c ch = Ascii.eqb (lower_char ch) c.
Proof.
  intros Hc.
  assert (H : ∀ c ch, implb (in_range 97 122 c)
                (Bool.eqb (chr_match true c ch) (Ascii.eqb (lower_char ch) c))
              = true).
  { intros c0. apply forall_chars. revert c0. by_enumeration. }
  specialize (H c ch). rewrite Hc in H. simpl in H.
  by apply Bool.eqb_prop in H.
Qed.

Lemma lower_char_letter (c : ascii) : in_range 97 122 c = true → lower_char c = c.
Proof.
  intros Hc.
  assert (H : ∀ c, implb (in_range 97 122 c) (Ascii.eqb (lower_char c) c) = true).
  { by_enumeration. }
  specialize (H c). rewrite Hc in H. by apply Ascii.eqb_eq in H.
Qed.

Lemma after_word_nil (s : str) : after_word [] s = Some s.
Proof. reflexivity. Qed.

Lemma after_word_empty c (w : str) : after_word (c :: w) [] = None.
Proof. reflexivity. Qed.

Lemma after_word_cons (c ch : ascii) (w s : str) :
  in_range 97 122 c = true →
  after_word (c :: w) (ch :: s)
  = if Ascii.eqb (lower_char ch) c then after_word w s else None.
Proof.
  intros Hc. unfold after_word.
  cbn [length take drop toLowerCase map]. rewrite (lower_char_letter c Hc).
  destruct (Ascii.eqb_spec (lower_char ch) c) as [->|Hne].
  - unfold toLowerCase. repeat case_decide; congruence.
  - rewrite decide_False; [done|]. intros [= ? _]. done.
Qed.

(** A word of the pattern, under the [i] flag. *)
Lemma run_Lit {A} (w s : str) g (k : str → option str → option A) :
  Forall (λ c, in_range 97 122 c = true) w →
  run true (Lit w) s g k
  = match after_word w s with Some s' => k s' g | None => None end.
Proof.
  intros Hw. revert s. induction Hw as [|c w Hc Hw IH]; intros s; cbn [Lit run].
  - by rewrite after_word_nil.
  - destruct s as [|ch s]; [by rewrite after_word_empty|].
    rewrite after_word_cons, chr_match_lower by done.
    destruct (Ascii.eqb _ c); [apply IH | done].
Qed.

(** Greedy repetition gives back nothing when the rest of the pattern
    cannot succeed inside the run once it failed after it. *)
Lemma plus_run_greedy {A} (p : ascii → bool) (s : str) (k : str → option A) :
  (∀ c s', p c = true → k (after_run p s') = None → k (c :: s') = None) →
  plus_run p s k
  = match s with
    | c :: s' => if p c then k (after_run p s') else None
    | [] => None
    end.
Proof.
  intros Hk. induction s as [|c s IH]; simpl; [done|].
  destruct (p c) eqn:Hc; [|done]. rewrite IH.
  destruct s as [|c' s']; simpl; [done|].
  destruct (p c') eqn:Hc'; [|done].
  destruct (k (after_run p s')) eqn:E; [done|].
  by apply Hk.
Qed.

Lemma take_run_length (p : ascii → bool) (s : str) :
  take (length s - length (after_run p s)) s = take_run p s.
Proof.
  assert (Hlen : ∀ s, length (after_run p s) ≤ length s).
  { intros t. induction t as [|c t IH]; simpl; [done|].
    destruct (p c); simpl; lia. }
  induction s as [|c s IH]; simpl; [done|].
  destruct (p c); simpl.
  - specialize (Hlen s).
    replace (S (length s) - length (after_run p s))
      with (S (length s - length (after_run p s))) by lia.
    simpl. by rewrite IH.
  - by rewrite Nat.sub_diag.
Qed.

Lemma take_after_run (p : ascii → bool) (s : str) :
  s = take_run p s ++ after_run p s.
Proof.
  induction s as [|c s IH]; simpl; [done|].
  destruct (p c); simpl; [by rewrite <- IH | done].
Qed.

Lemma take_run_Forall (p : ascii → bool) (s : str) :
  Forall (λ c, p c = true) (take_run p s).
Proof.
  induction s as [|c s IH]; simpl; [constructor|].
  destruct (p c) eqn:E; by constructor.
Qed.

Lemma plus_run_ext {A} (p q : ascii → bool) (s : str) (k : str → option A) :
  (∀ c, p c = q c) → plus_run p s k = plus_run q s k.
Proof.
  intros H. induction s as [|c s IH]; simpl; [done|]. by rewrite H, IH.
Qed.

Lemma run_Seq {A} ic r1 r2 (s : str) g (k : str → option str → option A) :
  run ic (Seq r1 r2) s g k = run ic r1 s g (λ s1 g1, run ic r2 s1 g1 k).
Proof. reflexivity. Qed.

Lemma run_Opt {A} ic r (s : str) g (k : str → option str → option A) :
  run ic (Opt r) s g k
  = match run ic r s g k with Some a => Some a | None => k s g end.
Proof. reflexivity. Qed.

(** [\s+], when the rest of the pattern cannot start on white space. *)
Lemma run_spaces {A} (s : str) g (k : str → option str → option A) :
  (∀ c s', is_space c = true → k (c :: s') g = None) →
  run true spaces s g k
  = match after_spaces s with Some s' => k s' g | None => None end.
Proof.
  intros Hk. unfold spaces. cbn [run].
  rewrite (plus_run_ext _ is_space) by apply space_class.
  rewrite plus_run_greedy by (intros c s' Hc _; by apply Hk).
  unfold after_spaces. destruct s as [|c s']; [done|]. by destruct (is_space c).
Qed.

(** An optional quote, when the rest of the pattern cannot start on a
    quote, or cannot fail. *)
Lemma run_quote {A} (s : str) g (k : str → option str → option A) :
  (∀ c s', is_quote c = true → k s' g = None → k (c :: s') g = None) →
  run true (Opt quote) s g k = k (after_quote s) g.
Proof.
  intros Hk. rewrite run_Opt. unfold quote. cbn [run].
  destruct s as [|c s']; [done|]. rewrite quote_class. unfold after_quote.
  destruct (is_quote c) eqn:Hc; [|done].
  destruct (k s' g) eqn:E; [done|]. by apply Hk.
Qed.

(** The captured run, when the rest of the pattern cannot fail. *)
Lemma run_tag_chars {A} (s : str) g (k : str → option str → option A) :
  (∀ s' g', k s' g' ≠ None) →
  run true (Grp (Plus false (chars_between "A" "Z" ++ ["_"%char]))) s g k
  = match take_run is_tag_char s with
    | [] => None
    | run => k (after_run is_tag_char s) (Some run)
    end.
Proof.
  intros Hk. cbn [run].
  rewrite (plus_run_ext _ is_tag_char) by apply tag_class.
  rewrite plus_run_greedy.
  - destruct s as [|c s']; [done|]. cbn [take_run after_run].
    destruct (is_tag_char c) eqn:Hc; [|done].
    pose proof (take_run_length is_tag_char (c :: s')) as H.
    cbn [take_run after_run] in H. rewrite Hc in H. by rewrite H.
  - intros c s' _ E. by apply Hk in E.
Qed.

Lemma space_not_quote (c : ascii) : is_space c = true → is_quote c = false.
Proof.
  intros Hc.
  assert (H : ∀ c, implb (is_space c) (negb (is_quote c)) = true).
  { by_enumeration. }
  specialize (H c). rewrite Hc in H. by apply negb_true_iff in H.
Qed.

Lemma space_not_tag_char (c : ascii) : is_space c = true → is_tag_char c = false.
Proof.
  intros Hc.
  assert (H : ∀ c, implb (is_space c) (negb (is_tag_char c)) = true).
  { by_enumeration. }
  specialize (H c). rewrite Hc in H. by apply negb_true_iff in H.
Qed.

Lemma quote_not_tag_char (c : ascii) : is_quote c = true → is_tag_char c = false.
Proof.
  intros Hc.
  assert (H : ∀ c, implb (is_quote c) (negb (is_tag_char c)) = true).
  { by_enumeration. }
  specialize (H c). rewrite Hc in H. by apply negb_true_iff in H.
Qed.

Lemma space_not_letter (c x : ascii) :
  is_space c = true → in_range 97 122 x = true → Ascii.eqb (lower_char c) x = false.
Proof.
  intros Hc Hx.
  assert (H : ∀ x c, implb (in_range 97 122 x && is_space c)
                       (negb (Ascii.eqb (lower_char c) x)) = true).
  { intros x0. apply forall_chars. revert x0. by_enumeration. }
  specialize (H x c). rewrite Hx, Hc in H. by apply negb_true_iff in H.
Qed.

(** The part of the tag pattern from the first optional quote on. *)
Lemma run_tag_tail {A} (s : str) g (k : str → option str → option A) :
  (∀ t g', k t g' ≠ None) →
  run true tag_tail s g k
  = match quoted_run s with
    | Some run =>
        k (after_quote (after_run is_tag_char (after_quote s))) (Some run)
    | None => None
    end.
Proof.
  intros Hk. unfold tag_tail. rewrite run_Seq, run_quote.
  - rewrite run_Seq, run_tag_chars.
    + unfold quoted_run. destruct (take_run is_tag_char (after_quote s)); [done|].
      apply run_quote. intros c t _ E. by apply Hk in E.
    + intros t g' E. rewrite run_quote in E; [by apply Hk in E|].
      intros c u _ E'. by apply Hk in E'.
  - intros c t Hc _. rewrite run_Seq, run_tag_chars.
    + cbn [take_run]. by rewrite (quote_not_tag_char c Hc).
    + intros u g' E. rewrite run_quote in E; [by apply Hk in E|].
      intros c' v _ E'. by apply Hk in E'.
Qed.

Lemma quoted_run_space (c : ascii) (s : str) :
  is_space c = true → quoted_run (c :: s) = None.
Proof.
  intros Hc. unfold quoted_run, after_quote.
  rewrite (space_not_quote c Hc). cbn [take_run].
  by rewrite (space_not_tag_char c Hc).
Qed.

Lemma after_word_space (x c : ascii) (w s : str) :
  is_space c = true → in_range 97 122 x = true → after_word (x :: w) (c :: s) = None.
Proof.
  intros Hc Hx. rewrite after_word_cons by done. by rewrite space_not_letter.
Qed.

Lemma as_run_space (c : ascii) (s : str) : is_space c = true → as_run (c :: s) = None.
Proof.
  intros Hc. unfold as_run.
  change (list_ascii_of_string "as") with ["a"%char; "s"%char].
  by rewrite after_word_space.
Qed.

Lemma tag_tail_space {A} (c : ascii) (s : str) g (k : str → option str → option A) :
  (∀ t g', k t g' ≠ None) →
  is_space c = true → run true tag_tail (c :: s) g k = None.
Proof.
  intros Hk Hc. rewrite run_tag_tail by done. by rewrite quoted_run_space.
Qed.

(** The tag pattern after "mark" and its white space. *)
Lemma run_as_tail {A} (s : str) g (k : str → option str → option A) :
  (∀ t g', k t g' ≠ None) →
  match run true (Seq (Opt (Seq (Lit "as") spaces)) tag_tail) s g k with
  | Some a =>
      ∃ run rest,
        match as_run s with Some r => Some r | None => quoted_run s end = Some run ∧
        k rest (Some run) = Some a
  | None => match as_run s with Some r => Some r | None => quoted_run s end = None
  end.
Proof.
  intros Hk.
  assert (Htail : ∀ t g',
            match run true tag_tail t g' k with
            | Some a => ∃ run rest, quoted_run t = Some run ∧ k rest (Some run) = Some a
            | None => quoted_run t = None
            end).
  { intros t g'. rewrite run_tag_tail by done.
    destruct (quoted_run t) as [run|]; [|done].
    destruct (k _ (Some run)) as [a|] eqn:E; [eauto | by apply Hk in E]. }
  rewrite run_Seq, run_Opt, run_Seq, run_Lit by (repeat constructor).
  unfold as_run. destruct (after_word "as" s) as [s1|].
  - rewrite run_spaces by (intros c t Hc; by apply tag_tail_space).
    destruct (after_spaces s1) as [s2|]; [|apply Htail].
    specialize (Htail s2 g) as H2.
    destruct (run true tag_tail s2 g k) as [a|].
    + destruct H2 as (run & rest & -> & Ha). eauto.
    + rewrite H2. apply Htail.
  - apply Htail.
Qed.

Lemma as_tail_space {A} (c : ascii) (s : str) g (k : str → option str → option A) :
  (∀ t g', k t g' ≠ None) →
  is_space c = true →
  run true (Seq (Opt (Seq (Lit "as") spaces)) tag_tail) (c :: s) g k = None.
Proof.
  intros Hk Hc. pose proof (run_as_tail (c :: s) g k Hk) as H.
  rewrite as_run_space, quoted_run_space in H by done.
  destruct (run true _ (c :: s) g k); [|done].
  by destruct H as (? & ? & ? & _).
Qed.

(** The tag pattern at the front of [s]: the result of the rest of the
    pattern on the run that [phrase_run] finds. *)
Lemma run_tag_pattern {A} (s : str) g (k : str → option str → option A) :
  (∀ t g', k t g' ≠ None) →
  match run true tag_pattern s g k with
  | Some a => ∃ run rest, phrase_run s = Some run ∧ k rest (Some run) = Some a
  | None => phrase_run s = None
  end.
Proof.
  intros Hk. unfold tag_pattern, phrase_run.
  rewrite run_Seq, run_Lit by (repeat constructor).
  destruct (after_word "mark" s) as [s1|]; [|done].
  rewrite run_Seq, run_spaces by (intros c t Hc; by apply as_tail_space).
  destruct (after_spaces s1) as [s2|]; [|done].
  apply run_as_tail, Hk.
Qed.

(** [prompt.match(tag_pattern)] captures the run of the first phrase. *)
Lemma match_tag_pattern (i : nat) (s : str) :
  group <$> match_from true tag_pattern i s = first_phrase_run s.
Proof.
  revert i. induction s as [|c s IH]; intros i; cbn [match_from first_phrase_run].
  - unfold exec_at.
    match goal with |- context [run true tag_pattern [] None ?k] =>
      pose proof (run_tag_pattern [] None k) as H end.
    destruct (run true tag_pattern [] None _) as [[[w g] rest]|].
    + destruct H as (run & t & -> & [= _ <- _]); done.
    + by rewrite H.
  - unfold exec_at.
    match goal with |- context [run true tag_pattern (c :: s) None ?k] =>
      pose proof (run_tag_pattern (c :: s) None k) as H end.
    destruct (run true tag_pattern (c :: s) None _) as [[[w g] rest]|].
    + destruct H as (run & t & -> & [= _ <- _]); done.
    + rewrite H by done. apply IH.
Qed.

Lemma extract_tag_spec (prompt : str) :
  extract_tag prompt = toUpperCase <$> first_phrase_run prompt.
Proof.
  unfold extract_tag, match_. rewrite <- match_tag_pattern with (i := 0).
  by destruct (match_from true tag_pattern 0 prompt).
Qed.

(** ** The phrase found is a phrase of the specification *)

Lemma after_word_Some (w s s' : str) :
  after_word w s = Some s' →
  ∃ m, s = m ++ s' ∧ toLowerCase m = toLowerCase w.
Proof.
  unfold after_word. case_decide as H; [|done]. intros [= <-].
  exists (take (length w) s). by rewrite take_drop.
Qed.

Lemma after_word_app (w m rest : str) :
  toLowerCase m = toLowerCase w → after_word w (m ++ rest) = Some rest.
Proof.
  intros H. unfold after_word.
  assert (Hlen : length w = length m).
  { by rewrite <- (toLowerCase_length w), <- H, toLowerCase_length. }
  rewrite Hlen, take_app_length, drop_app_length. by rewrite decide_True.
Qed.

Lemma after_run_app (p : ascii → bool) (run rest : str) :
  Forall (λ c, p c = true) run → after_run p (run ++ rest) = after_run p rest.
Proof.
  induction 1 as [|c run Hc Hrun IH]; simpl; [done|]. by rewrite Hc.
Qed.

Lemma take_run_app (p : ascii → bool) (run rest : str) :
  Forall (λ c, p c = true) run → take_run p (run ++ rest) = run ++ take_run p rest.
Proof.
  induction 1 as [|c run Hc Hrun IH]; simpl; [done|]. by rewrite Hc, IH.
Qed.

Lemma after_run_outside (p : ascii → bool) (s : str) :
  starts_outside p s → after_run p s = s.
Proof. destruct s as [|c s]; simpl; [done|]. by intros ->. Qed.

Lemma after_spaces_Some (s s' : str) :
  after_spaces s = Some s' →
  ∃ sp, s = sp ++ s' ∧ sp ≠ [] ∧ Forall (λ c, is_space c = true) sp.
Proof.
  unfold after_spaces. destruct s as [|c s]; [done|].
  destruct (is_space c) eqn:Hc; [|done]. intros [= <-].
  exists (c :: take_run is_space s). split; [|split; [done|]].
  - simpl. by rewrite <- take_after_run.
  - constructor; [done | apply take_run_Forall].
Qed.

Lemma after_spaces_app (sp rest : str) :
  sp ≠ [] → Forall (λ c, is_space c = true) sp → starts_outside is_space rest →
  after_spaces (sp ++ rest) = Some rest.
Proof.
  intros Hne Hsp Hrest. destruct Hsp as [|c sp Hc Hsp]; [done|].
  simpl. rewrite Hc. by rewrite after_run_app, after_run_outside.
Qed.

Lemma quoted_run_Some (s run : str) :
  quoted_run s = Some run →
  ∃ q post, s = q ++ run ++ post ∧
            (q = [] ∨ ∃ c, q = [c] ∧ is_quote c = true) ∧
            run ≠ [] ∧ Forall (λ c, is_tag_char c = true) run.
Proof.
  unfold quoted_run. intros H.
  assert (Hrun : take_run is_tag_char (after_quote s) = run ∧ run ≠ []).
  { destruct (take_run is_tag_char (after_quote s)); [done|].
    injection H as <-. done. }
  destruct Hrun as [<- Hne].
  assert (Hq : ∃ q, s = q ++ after_quote s ∧
                    (q = [] ∨ ∃ c, q = [c] ∧ is_quote c = true)).
  { unfold after_quote. destruct s as [|c s]; [exists []; eauto|].
    destruct (is_quote c) eqn:Hc; [exists [c]; eauto | exists []; eauto]. }
  destruct Hq as (q & Hs & Hq).
  exists q, (after_run is_tag_char (after_quote s)).
  split; [|split; [done|split; [done | apply take_run_Forall]]].
  by rewrite <- take_after_run.
Qed.

Lemma quoted_run_app (q run post : str) :
  (q = [] ∨ ∃ c, q = [c] ∧ is_quote c = true) →
  run ≠ [] → Forall (λ c, is_tag_char c = true) run →
  is_Some (quoted_run (q ++ run ++ post)).
Proof.
  intros Hq Hne Hrun. unfold quoted_run.
  assert (Ha : after_quote (q ++ run ++ post) = run ++ post).
  { destruct Hq as [-> | (c & -> & Hc)]; simpl; [|by rewrite Hc].
    destruct Hrun as [|c run Hc Hrun]; [done|]. simpl.
    destruct (is_quote c) eqn:Hq; [|done].
    apply quote_not_tag_char in Hq. congruence. }
  rewrite Ha, take_run_app by done.
  destruct run; [done|]. simpl. eauto.
Qed.

Lemma phrase_run_sound (s run : str) :
  phrase_run s = Some run → ∃ w post, s = w ++ post ∧ mark_phrase w run.
Proof.
  unfold phrase_run.
  destruct (after_word "mark" s) as [s1|] eqn:E1; [|done].
  destruct (after_spaces s1) as [s2|] eqn:E2; [|done].
  apply after_word_Some in E1 as (m & -> & Hm).
  apply after_spaces_Some in E2 as (sp & -> & Hsp & Hsp').
  destruct (as_run s2) as [run'|] eqn:E3.
  - intros [= ->]. unfold as_run in E3.
    destruct (after_word "as" s2) as [s3|] eqn:E4; [|done].
    destruct (after_spaces s3) as [s4|] eqn:E5; [|done].
    apply after_word_Some in E4 as (a1 & -> & Ha1).
    apply after_spaces_Some in E5 as (sp2 & -> & Hsp2 & Hsp2').
    apply quoted_run_Some in E3 as (q & post & -> & Hq & Hne & Hrun).
    exists (m ++ sp ++ (a1 ++ sp2) ++ q ++ run), post.
    split; [by rewrite <- !app_assoc|].
    exists m, sp, (a1 ++ sp2), q. repeat split; try done.
    right. by exists a1, sp2.
  - intros (q & post & -> & Hq & Hne & Hrun)%quoted_run_Some.
    exists (m ++ sp ++ [] ++ q ++ run), post.
    split; [by rewrite <- !app_assoc|].
    exists m, sp, [], q. repeat split; try done. by left.
Qed.

Lemma tag_char_not_space (c : ascii) : is_tag_char c = true → is_space c = false.
Proof.
  intros Hc. destruct (is_space c) eqn:E; [|done].
  apply space_not_tag_char in E. congruence.
Qed.

Lemma quote_not_space (c : ascii) : is_quote c = true → is_space c = false.
Proof.
  intros Hc. destruct (is_space c) eqn:E; [|done].
  apply space_not_quote in E. congruence.
Qed.

Lemma run_outside_space (run post : str) :
  run ≠ [] → Forall (λ c, is_tag_char c = true) run →
  starts_outside is_space (run ++ post).
Proof.
  intros Hne Hrun. destruct Hrun as [|c run Hc _]; [done|].
  simpl. by apply tag_char_not_space.
Qed.

Lemma quoted_outside_space (q run post : str) :
  (q = [] ∨ ∃ c, q = [c] ∧ is_quote c = true) →
  run ≠ [] → Forall (λ c, is_tag_char c = true) run →
  starts_outside is_space (q ++ run ++ post).
Proof.
  intros [-> | (c & -> & Hc)] Hne Hrun; simpl.
  - by apply run_outside_space.
  - by apply quote_not_space.
Qed.

Lemma word_outside_space (x : ascii) (w m rest : str) :
  in_range 97 122 x = true → toLowerCase m = x :: w →
  starts_outside is_space (m ++ rest).
Proof.
  intros Hx Hm. destruct m as [|c m]; [done|]. simpl in *.
  injection Hm as Hc _. destruct (is_space c) eqn:E; [|done].
  apply (space_not_letter c x) in E; [|done].
  rewrite Hc in E. by rewrite Ascii.eqb_refl in E.
Qed.

Lemma phrase_run_complete (w run post : str) :
  mark_phrase w run → is_Some (phrase_run (w ++ post)).
Proof.
  intros (m & sp & a & q & -> & Hm & Hsp & Hsp' & Ha & Hq & Hne & Hrun).
  rewrite <- !app_assoc. unfold phrase_run.
  rewrite after_word_app by done.
  assert (Hqr : is_Some (quoted_run (q ++ run ++ post)))
    by (by apply quoted_run_app).
  destruct Ha as [-> | (a1 & sp2 & -> & Ha1 & Hsp2 & Hsp2')].
  - simpl. rewrite after_spaces_app; [|done|done|by apply quoted_outside_space].
    destruct (as_run _); [eauto | done].
  - rewrite <- !app_assoc.
    rewrite after_spaces_app;
      [|done|done|by apply (word_outside_space "a" ["s"%char])].
    unfold as_run. rewrite after_word_app by done.
    rewrite after_spaces_app; [|done|done|by apply quoted_outside_space].
    destruct Hqr as [r ->]. eauto.
Qed.

Lemma first_phrase_run_sound (s run : str) :
  first_phrase_run s = Some run →
  ∃ pre w post, s = pre ++ w ++ post ∧ mark_phrase w run.
Proof.
  induction s as [|c s IH]; cbn [first_phrase_run].
  - destruct (phrase_run []) eqn:E; [|done]. intros [= ->].
    apply phrase_run_sound in E as (w & post & Hs & Hw). by exists [], w, post.
  - destruct (phrase_run (c :: s)) eqn:E.
    + intros [= ->]. apply phrase_run_sound in E as (w & post & Hs & Hw).
      by exists [], w, post.
    + intros (pre & w & post & -> & Hw)%IH. by exists (c :: pre), w, post.
Qed.

Lemma first_phrase_run_here (s run : str) :
  phrase_run s = Some run → first_phrase_run s = Some run.
Proof. destruct s; cbn [first_phrase_run]; by intros ->. Qed.

Lemma first_phrase_run_complete (pre w run post : str) :
  mark_phrase w run → is_Some (first_phrase_run (pre ++ w ++ post)).
Proof.
  intros Hw. pose proof (phrase_run_complete w run post Hw) as [r Hr].
  induction pre as [|c pre IH].
  - exists r. by apply first_phrase_run_here.
  - cbn [app first_phrase_run].
    destruct (phrase_run (c :: pre ++ w ++ post)); eauto.
Qed.

Lemma has_phrase_first_run (prompt : str) :
  has_phrase prompt ↔ is_Some (first_phrase_run prompt).
Proof.
  split.
  - intros (pre & w & run & post & -> & Hw). by eapply first_phrase_run_complete.
  - intros [run (pre & w & post & Hs & Hw)%first_phrase_run_sound].
    by exists pre, w, run, post.
Qed.

(** On a run of letters and underscores [toUpperCase] yields A-Z and
    underscores. *)
Lemma toUpperCase_run (run : str) :
  Forall (λ c, is_tag_char c = true) run →
  Forall (λ c, in_range 65 90 c = true ∨ c = "_"%char) (toUpperCase run).
Proof.
  assert (H : ∀ c, implb (is_tag_char c)
                (in_range 65 90 (upper_char c) || Ascii.eqb (upper_char c) "_")
              = true).
  { by_enumeration. }
  induction 1 as [|c run Hc Hrun IH]; simpl; constructor; [|done].
  specialize (H c). rewrite Hc in H. simpl in H.
  apply orb_true_iff in H as [H | H%Ascii.eqb_eq]; auto.
Qed.

(** C7. The tag of the parsed rule is the upper case form of the run of
    letters and underscores captured by the first "mark as" phrase of the
    prompt (mark, white space, optionally as and white space, optionally a
    quote, then the run); a prompt with such a phrase gets the run of one of
    its phrases in upper case, made of A-Z and underscores, and a prompt
    without such a phrase gets no tag. *)
Theorem tag_from_mark_phrase (stamp : Stamp) (prompt : str) :
  ∃ rule, parsePrompt stamp prompt = Some rule ∧
    tag (action rule) = toUpperCase <$> first_phrase_run prompt ∧
    (has_phrase prompt →
     ∃ pre w run post,
       prompt = pre ++ w ++ post ∧ mark_phrase w run ∧
       tag (action rule) = Some (toUpperCase run) ∧
       Forall (λ c, in_range 65 90 c = true ∨ c = "_"%char) (toUpperCase run)) ∧
    (¬ has_phrase prompt → tag (action rule) = None).
Proof.
  destruct (parsePrompt_total stamp prompt) as (rule & H & _ & _ & Ht & _).
  exists rule. split; [done|]. rewrite Ht, extract_tag_spec.
  split; [done|]. split.
  - intros [run Hrun]%has_phrase_first_run. rewrite Hrun.
    apply first_phrase_run_sound in Hrun as (pre & w & post & Hs & Hw).
    exists pre, w, run, post. repeat split; try done.
    apply toUpperCase_run.
    by destruct Hw as (? & ? & ? & ? & _ & _ & _ & _ & _ & _ & _ & ?).
  - intros Hno. destruct (first_phrase_run prompt) as [run|] eqn:E; [|done].
    exfalso. apply Hno, has_phrase_first_run. eauto.
Qed.

(** ** The pieces of [split] on a repeated class *)

Lemma plus_run_Some {A} (p : ascii → bool) (s : str) (k : str → option A) a :
  plus_run p s k = Some a → ∃ t, k t = Some a ∧ length t < length s.
Proof.
  revert a. induction s as [|c s IH]; intros a; simpl; [done|].
  destruct (p c); [|done].
  destruct (plus_run p s k) as [b|] eqn:E.
  - intros [= <-]. destruct (IH b eq_refl) as (t & Ht & Hlen).
    exists t. split; [done | lia].
  - intros H. exists s. split; [done | lia].
Qed.

Lemma exec_at_Plus_Some ic inv mem (s : str) w g rest :
  exec_at ic (Plus inv mem) s = Some (w, g, rest) → 0 < length w.
Proof.
  unfold exec_at. cbn [run]. intros (t & Ht & Hlen)%plus_run_Some.
  injection Ht as <- _ _. rewrite length_take. lia.
Qed.

Lemma exec_at_Plus_None ic inv mem (c : ascii) (s : str) :
  exec_at ic (Plus inv mem) (c :: s) = None → cls_match ic inv mem c = false.
Proof.
  unfold exec_at. cbn [run plus_run].
  destruct (cls_match ic inv mem c); [|done].
  by destruct (plus_run _ s _).
Qed.

(** No piece contains a character of the separator class. *)
Lemma split_from_Plus ic inv mem skip (cur s : str) :
  Forall (λ c, cls_match ic inv mem c = false) cur →
  Forall (Forall (λ c, cls_match ic inv mem c = false))
         (split_from ic (Plus inv mem) skip cur s).
Proof.
  revert skip cur. induction s as [|c s IH]; intros skip cur Hcur; simpl.
  - constructor; [by apply Forall_rev | constructor].
  - destruct skip; [|by apply IH].
    destruct (exec_at ic (Plus inv mem) (c :: s)) as [[[w g] rest]|] eqn:E.
    + apply exec_at_Plus_Some in E. destruct (length w); [lia|].
      constructor; [by apply Forall_rev | apply IH; constructor].
    + apply exec_at_Plus_None in E. apply IH. by constructor.
Qed.

Lemma split_Plus ic inv mem (s : str) :
  Forall (Forall (λ c, cls_match ic inv mem c = false))
         (split ic (Plus inv mem) s).
Proof.
  destruct s as [|c s]; simpl.
  - destruct (exec_at ic (Plus inv mem) []); repeat constructor.
  - apply (split_from_Plus ic inv mem 0 [] (c :: s)). constructor.
Qed.

Lemma non_letter_class (c : ascii) :
  cls_match false true (chars_between "a" "z") c = negb (in_range 97 122 c).
Proof.
  assert (H : ∀ c, Bool.eqb (cls_match false true (chars_between "a" "z") c)
                            (negb (in_range 97 122 c)) = true).
  { by_enumeration. }
  apply Bool.eqb_prop, H.
Qed.

(** The fallback keywords are words of letters a-z. *)
Lemma fallback_words_letters (promptLower : str) :
  Forall (Forall (λ c, in_range 97 122 c = true)) (fallback_words promptLower).
Proof.
  unfold fallback_words, non_letters.
  apply Forall_take, filter_Forall2.
  eapply Forall_impl; [apply split_Plus|]. intros w Hw.
  eapply Forall_impl; [exact Hw|]. intros c Hc. cbv beta in Hc.
  rewrite non_letter_class in Hc. by apply negb_false_iff in Hc.
Qed.

(** ** [parsePrompt]: the keywords *)

Lemma scan_patterns_no_match (patterns : list regex) (prompt : str) kws :
  Forall (λ p, match_ true p prompt = None) patterns →
  scan_patterns patterns prompt kws = kws.
Proof.
  induction 1 as [|p ps Hp Hps IH]; simpl; [done|]. by rewrite Hp.
Qed.

Lemma fallback_words_bounds (promptLower : str) :
  length (fallback_words promptLower) ≤ 3 ∧
  Forall (λ kw, 3 < length kw) (fallback_words promptLower).
Proof.
  unfold fallback_words. split.
  - rewrite length_take. lia.
  - apply Forall_take, Forall_forall. intros kw Hkw.
    apply list_elem_of_In, filter_In in Hkw as [_ Hlen].
    by apply Nat.ltb_lt in Hlen.
Qed.

(** C5. For every prompt on which none of the three trigger patterns
    matches, the keywords of the parsed rule are those of the fallback
    tokenizer: at most three, each longer than 3 characters (and made of the
    letters a-z). *)
Theorem fallback_keywords (stamp : Stamp) (prompt : str) :
  Forall (λ pattern, match_ true pattern prompt = None) triggerPatterns →
  ∃ rule, parsePrompt stamp prompt = Some rule ∧
    keywords (trigger rule) = fallback_words (toLowerCase prompt) ∧
    length (keywords (trigger rule)) ≤ 3 ∧
    Forall (λ kw, 3 < length kw) (keywords (trigger rule)) ∧
    Forall (Forall (λ c, in_range 97 122 c = true)) (keywords (trigger rule)).
Proof.
  intros Hno.
  destruct (parsePrompt_total stamp prompt) as (rule & H & Hk & _).
  exists rule. split; [done|].
  assert (Hf : keywords (trigger rule) = fallback_words (toLowerCase prompt)).
  { rewrite Hk. unfold extract_keywords.
    by rewrite (scan_patterns_no_match _ _ _ Hno). }
  rewrite Hf. split; [done|].
  pose proof (fallback_words_bounds (toLowerCase prompt)) as [Hlen Hlong].
  split; [done|]. split; [done|]. apply fallback_words_letters.
Qed.

Lemma fallback_keywords_witness :
  Forall (λ pattern,
            match_ true pattern "Block all refund requests over $500" = None)
         triggerPatterns ∧
  ∃ rule,
    parsePrompt sample_stamp "Block all refund requests over $500" = Some rule ∧
    keywords (trigger rule)
    = fallback_words (toLowerCase "Block all refund requests over $500") ∧
    length (keywords (trigger rule)) ≤ 3 ∧
    Forall (λ kw, 3 < length kw) (keywords (trigger rule)) ∧
    Forall (Forall (λ c, in_range 97 122 c = true)) (keywords (trigger rule)).
Proof.
  assert (H : Forall (λ pattern,
                match_ true pattern "Block all refund requests over $500" = None)
              triggerPatterns).
  { repeat constructor; vm_compute; reflexivity. }
  split; [exact H|].
  exact (fallback_keywords sample_stamp "Block all refund requests over $500" H).
Defined.

(** ** The theorems at sample inputs *)

Ltac split_elem_of :=
  repeat match goal with
    | H : _ ∈ [] |- _ => by apply elem_of_nil in H
    | H : _ ∈ _ :: _ |- _ => apply elem_of_cons in H as [-> | H]
    end.


Lemma applyDynamicRules_no_hit_witness :
  (∀ r kw, r ∈ [R1; R2] → active r = true → kw ∈ keywords (trigger r) →
           ¬ occurs kw (toLowerCase "Where is my PARCEL?")) ∧
  applyDynamicRules [R1; R2] "Where is my PARCEL?" = no_match.
Proof.
  assert (H : ∀ r kw, r ∈ [R1; R2] → active r = true →
                kw ∈ keywords (trigger r) →
                ¬ occurs kw (toLowerCase "Where is my PARCEL?")).
  { intros r kw Hr _ Hkw. apply includes_false.
    split_elem_of; simpl in Hkw; split_elem_of; vm_compute; reflexivity. }
  split; [exact H|].
  exact (applyDynamicRules_no_hit [R1; R2] "Where is my PARCEL?" H).
Defined.

Lemma deactivateRule_soft_delete_witness :
  fst (deactivateRule [R1; R2] (id R2)) = true ∧
  snd (deactivateRule [R1; R2] (id R2)) = [R1; set_inactive R2] ∧
  ∃ i r',
    snd (deactivateRule [R1; R2] (id R2)) !! i = Some r' ∧
    active r' = false ∧
    ∀ ops message,
      checkMessage (run_ops (snd (deactivateRule [R1; R2] (id R2))) ops) message
      ≠ Some r'.
Proof.
  assert (Hok : fst (deactivateRule [R1; R2] (id R2)) = true) by reflexivity.
  split; [exact Hok|]. split; [reflexivity|].
  destruct (proj2 (proj2 (deactivateRule_soft_delete [R1; R2] (id R2))) Hok)
    as (i & r & r' & _ & _ & _ & Hi & Ha & _ & _ & _ & _ & _ & _ & _ & _ & _ & Hnever).
  exists i, r'. split; [exact Hi|]. split; [exact Ha | exact Hnever].
Defined.

Lemma tag_from_mark_phrase_witness :
  ∃ rule,
    parsePrompt sample_stamp "Please mark as 'vip_customer' and escalate"
    = Some rule ∧
    tag (action rule) = Some ("VIP_CUSTOMER" : str).
Proof.
  destruct (tag_from_mark_phrase sample_stamp
              "Please mark as 'vip_customer' and escalate")
    as (rule & H & Ht & _).
  exists rule. split; [exact H|]. rewrite Ht. vm_compute. reflexivity.
Defined.

(** The first example prompt of the documentation. *)
Example readme_prompt :
  ∃ rule,
    parsePrompt sample_stamp
      "If a customer wants to update their order address, do not update it directly. Mark the order as NEEDS_ATTENTION and escalate the situation."
    = Some rule ∧
    keywords (trigger rule) = ["updte" : str; "ddress" : str] ∧
    type (action rule) = block ∧
    tag (action rule) = Some ("THE" : str).
Proof. eexists. split; [reflexivity|]. repeat split; vm_compute; reflexivity. Qed.

(** * Further properties of the code *)

(** ** What a match consumes *)

Lemma run_min_len {A} ic (r : regex) (s : str) g
    (k : str → option str → option A) a :
  run ic r s g k = Some a →
  ∃ s' g', k s' g' = Some a ∧ length s' + min_len r ≤ length s.
Proof.
  revert s g k a.
  induction r as [|c|inv mem|r1 IH1 r2 IH2|r1 IH1 r2 IH2|r1 IH1|inv mem|r1 IH1];
    intros s g k a; cbn [run min_len].
  - intros H. exists s, g. split; [done | lia].
  - destruct s as [|ch s]; [done|]. destruct (chr_match ic c ch); [|done].
    intros H. exists s, g. split; [done | simpl; lia].
  - destruct s as [|ch s]; [done|]. destruct (cls_match ic inv mem ch); [|done].
    intros H. exists s, g. split; [done | simpl; lia].
  - intros (s1 & g1 & H1 & Hl1)%IH1. apply IH2 in H1 as (s2 & g2 & H2 & Hl2).
    exists s2, g2. split; [done | lia].
  - destruct (run ic r1 s g k) as [b|] eqn:E.
    + intros [= <-]. apply IH1 in E as (s1 & g1 & H1 & Hl1).
      exists s1, g1. split; [done | lia].
    + intros (s2 & g2 & H2 & Hl2)%IH2. exists s2, g2. split; [done | lia].
  - destruct (run ic r1 s g k) as [b|] eqn:E.
    + intros [= <-]. apply IH1 in E as (s1 & g1 & H1 & Hl1).
      exists s1, g1. split; [done | lia].
    + intros H. exists s, g. split; [done | lia].
  - intros (t & Ht & Hlen)%plus_run_Some. exists t, g. split; [done | lia].
  - intros (s1 & g1 & H1 & Hl1)%IH1. eauto.
Qed.

Lemma exec_at_consumes ic (r : regex) (s : str) w g rest :
  0 < min_len r → exec_at ic r s = Some (w, g, rest) → 0 < length w.
Proof.
  intros Hr. unfold exec_at. intros (s' & g' & H & Hlen)%run_min_len.
  injection H as <- _ _. rewrite length_take. lia.
Qed.

(** [replace(r, '')] leaves no character on which [r] always matches. *)
Lemma remove_from_drops ic (r : regex) (x : ascii) skip (s : str) :
  0 < min_len r →
  (∀ t, is_Some (exec_at ic r (x :: t))) →
  Forall (λ c, c ≠ x) (remove_from ic r skip s).
Proof.
  intros Hr Hx. revert skip. induction s as [|c s IH]; intros skip; simpl.
  - constructor.
  - destruct skip; [|apply IH].
    destruct (exec_at ic r (c :: s)) as [[[w g] rest]|] eqn:E.
    + apply exec_at_consumes in E; [|done].
      destruct (length w); [lia | apply IH].
    + constructor; [|apply IH]. intros ->.
      destruct (Hx s) as [? Hs]. congruence.
Qed.

Lemma run_Alt_l {A} ic r1 r2 (s : str) g (k : str → option str → option A) :
  is_Some (run ic r1 s g k) → is_Some (run ic (Alt r1 r2) s g k).
Proof. cbn [run]. intros [a ->]. eauto. Qed.

Lemma run_Alt_r {A} ic r1 r2 (s : str) g (k : str → option str → option A) :
  is_Some (run ic r2 s g k) → is_Some (run ic (Alt r1 r2) s g k).
Proof. cbn [run]. intros [a Ha]. destruct (run ic r1 s g k); eauto. Qed.

Lemma clause_stop_words_a (t : str) :
  is_Some (exec_at false clause_stop_words ("a"%char :: t)).
Proof.
  unfold exec_at, clause_stop_words.
  do 3 apply run_Alt_l. apply run_Alt_r. cbn. eauto.
Qed.

Lemma prompt_stop_words_a (t : str) :
  is_Some (exec_at false prompt_stop_words ("a"%char :: t)).
Proof.
  unfold exec_at, prompt_stop_words.
  apply run_Alt_l, run_Alt_r. cbn. eauto.
Qed.

Lemma plain_space_class (c : ascii) :
  cls_match false false white_space c = is_space c.
Proof. destruct c as [[] [] [] [] [] [] [] []]; vm_compute; reflexivity. Qed.

Lemma letter_not_space (c : ascii) : in_range 97 122 c = true → is_space c = false.
Proof.
  intros Hc.
  assert (H : ∀ c, implb (in_range 97 122 c) (negb (is_space c)) = true).
  { by_enumeration. }
  specialize (H c). rewrite Hc in H. by apply negb_true_iff in H.
Qed.

(** The shape of one keyword of [parsePrompt]. *)
Lemma clause_words_shape (clause : str) :
  Forall (λ kw, 2 < length kw ∧
                Forall (λ c, is_space c = false ∧ c ≠ "a"%char) kw)
         (clause_words clause).
Proof.
  unfold clause_words. apply Forall_forall. intros kw Hkw.
  apply list_elem_of_In, filter_In in Hkw as [Hin Hlen].
  split; [by apply Nat.ltb_lt in Hlen|].
  apply list_elem_of_In in Hin. apply Forall_and. split.
  - pose proof (split_Plus false false white_space
                  (trim (replace_all_empty false clause_stop_words
                           (toLowerCase clause)))) as H.
    eapply Forall_forall in H; [|exact Hin].
    eapply Forall_impl; [exact H|]. intros c Hc. cbv beta in Hc.
    by rewrite plain_space_class in Hc.
  - assert (Ha : Forall (Forall (λ c, c ≠ "a"%char))
                  (split false spaces
                     (trim (replace_all_empty false clause_stop_words
                              (toLowerCase clause))))).
    { apply split_Forall, trim_Forall, remove_from_drops;
        [vm_compute; lia | apply clause_stop_words_a]. }
    eapply Forall_forall in Ha; [exact Ha | exact Hin].
Qed.

Lemma fallback_words_shape (promptLower : str) :
  Forall (λ kw, 2 < length kw ∧
                Forall (λ c, is_space c = false ∧ c ≠ "a"%char) kw)
         (fallback_words promptLower).
Proof.
  apply Forall_forall. intros kw Hkw. split.
  - pose proof (fallback_words_bounds promptLower) as [_ H].
    eapply Forall_forall in H; [|exact Hkw]. cbv beta in H. lia.
  - apply Forall_and. split.
    + pose proof (fallback_words_letters promptLower) as H.
      eapply Forall_forall in H; [|exact Hkw].
      eapply Forall_impl; [exact H|]. intros c Hc. by apply letter_not_space.
    + assert (Ha : Forall (Forall (λ c, c ≠ "a"%char))
                    (fallback_words promptLower)).
      { unfold fallback_words.
        apply Forall_take, filter_Forall2, split_Forall, remove_from_drops;
          [vm_compute; lia | apply prompt_stop_words_a]. }
      eapply Forall_forall in Ha; [exact Ha | exact Hkw].
Qed.

Lemma extract_keywords_shape (prompt : str) :
  Forall (λ kw, 2 < length kw ∧
                Forall (λ c, is_space c = false ∧ c ≠ "a"%char) kw)
         (extract_keywords prompt).
Proof.
  unfold extract_keywords. destruct (_ =? 0); [apply fallback_words_shape|].
  unfold triggerPatterns. cbn [scan_patterns].
  repeat (destruct (match_ true _ prompt); [apply clause_words_shape|]).
  constructor.
Qed.


(** X2. No keyword [parsePrompt] produces contains the letter a, in either
    case: both stop-word patterns remove every a of the lowercased text. *)
Theorem parsePrompt_keywords_without_a (stamp : Stamp) (prompt : str) :
  ∃ rule, parsePrompt stamp prompt = Some rule ∧
    Forall (Forall (λ c, c ≠ "a"%char ∧ c ≠ "A"%char))
           (keywords (trigger rule)).
Proof.
  destruct (parsePrompt_total stamp prompt) as (rule & H & Hk & _).
  exists rule. split; [done|]. rewrite Hk.
  pose proof (extract_keywords_shape prompt) as Hs.
  pose proof (extract_keywords_lowercase prompt) as Hl.
  apply Forall_forall. intros kw Hkw.
  eapply Forall_forall in Hs; [|exact Hkw].
  eapply Forall_forall in Hl; [|exact Hkw].
  destruct Hs as [_ Hc]. unfold lowercase, toLowerCase in Hl.
  clear Hkw. induction Hc as [|c kw [_ Hc] Hkw IH]; [constructor|].
  injection Hl as Hlc Hl. constructor; [|by apply IH].
  split; [done|]. intros ->. by vm_compute in Hlc.
Qed.

(** ** Invariants of the reachable stores *)

Lemma step_keywords (P : str → Prop) (rules : DynamicRuleStore) (op : Op) :
  (∀ prompt, Forall P (extract_keywords prompt)) →
  (∀ r kw, r ∈ rules → kw ∈ keywords (trigger r) → P kw) →
  ∀ r kw, r ∈ step rules op → kw ∈ keywords (trigger r) → P kw.
Proof.
  intros HP Hinv. destruct op as [stamp prompt | ruleId |]; simpl.
  - destruct (addRule_appends rules stamp prompt) as (rule & Hp & ->). simpl.
    destruct (parsePrompt_total stamp prompt) as (rule' & Hp' & Hk & _).
    assert (rule' = rule) as -> by congruence.
    intros r kw [Hr | Hr%list_elem_of_singleton]%elem_of_app Hkw.
    + by eapply Hinv.
    + subst r. rewrite Hk in Hkw.
      by eapply (proj1 (Forall_forall _ _) (HP prompt)).
  - unfold deactivateRule.
    destruct (find_rule rules ruleId) as [[i r0]|] eqn:E; [|done].
    simpl. apply list_find_Some in E as (Hi & _ & _).
    intros r kw Hr Hkw. apply list_elem_of_lookup in Hr as [j Hj].
    destruct (decide (i = j)) as [->|Hne].
    + rewrite list_lookup_insert_eq in Hj by (by eapply lookup_lt_Some).
      injection Hj as <-.
      apply (Hinv r0 kw); [by eapply list_elem_of_lookup_2 | done].
    + rewrite list_lookup_insert_ne in Hj by done.
      eapply Hinv; [|done]. by eapply list_elem_of_lookup_2.
  - intros r kw Hr. by apply elem_of_nil in Hr.
Qed.

Lemma reachable_keywords (P : str → Prop) (rules : DynamicRuleStore) :
  (∀ prompt, Forall P (extract_keywords prompt)) →
  reachable rules →
  ∀ r kw, r ∈ rules → kw ∈ keywords (trigger r) → P kw.
Proof.
  intros HP [ops ->]. unfold run_ops.
  assert (H : ∀ r kw, r ∈ @nil MASUpdateRule → kw ∈ keywords (trigger r) → P kw)
    by (intros r kw Hr; by apply elem_of_nil in Hr).
  revert H. generalize (@nil MASUpdateRule).
  induction ops as [|op ops IH]; intros rules H; simpl; [done|].
  by apply IH, step_keywords.
Qed.

Lemma occurs_length (t s : str) : occurs t s → length t ≤ length s.
Proof. intros (pre & post & ->). rewrite !length_app. lia. Qed.

(** X3. In a store reached through the operations of the class, a message
    whose lowercased text has fewer than 3 characters matches no rule. *)
Theorem short_message_never_matches (rules : DynamicRuleStore) (message : str) :
  reachable rules → length (toLowerCase message) < 3 →
  checkMessage rules message = None ∧
  applyDynamicRules rules message = no_match.
Proof.
  intros Hreach Hlen.
  assert (Hnone : checkMessage rules message = None).
  { destruct (checkMessage rules message) as [r|] eqn:E; [exfalso|done].
    unfold checkMessage in E.
    assert (Hin : r ∈ rules).
    { rewrite check_loop_find in E.
      destruct (list_find _ rules) as [[i r']|] eqn:F; [|done].
      injection E as ->. apply list_find_Some in F as (Hi & _).
      by eapply list_elem_of_lookup_2. }
    apply check_loop_active in E. unfold fires in E.
    apply andb_true_iff in E as [_ (kw & Hkw & Hhit)%existsb_exists].
    apply list_elem_of_In in Hkw.
    pose proof (reachable_keywords (λ kw, 2 < length kw ∧
                  Forall (λ c, is_space c = false ∧ c ≠ "a"%char) kw)
                  rules extract_keywords_shape Hreach r kw Hin Hkw) as [Hk _].
    unfold hit in Hhit. apply includes_spec, occurs_length in Hhit. lia. }
  split; [done|]. unfold applyDynamicRules. by rewrite Hnone.
Qed.

Lemma short_message_never_matches_witness :
  reachable (run_ops [] [OpAdd sample_stamp "Block all refund requests over $500"]) ∧
  length (toLowerCase "OK") < 3 ∧
  checkMessage
    (run_ops [] [OpAdd sample_stamp "Block all refund requests over $500"]) "OK"
  = None.
Proof.
  assert (Hr : reachable
            (run_ops [] [OpAdd sample_stamp "Block all refund requests over $500"])).
  { eexists. reflexivity. }
  assert (Hl : length (toLowerCase "OK") < 3) by (vm_compute; lia).
  split; [exact Hr|]. split; [exact Hl|].
  exact (proj1 (short_message_never_matches _ "OK" Hr Hl)).
Defined.

(** X4. A new rule never overrides an existing match: after [addRule] a
    message matched before is still answered by the same rule, and a message
    matched by no rule before is answered by the new rule or by none. *)
Theorem addRule_keeps_matches
    (rules : DynamicRuleStore) (stamp : Stamp) (prompt message : str) :
  ∃ rule, fst (addRule rules stamp prompt) = Some rule ∧
    checkMessage (snd (addRule rules stamp prompt)) message
    = match checkMessage rules message with
      | Some r => Some r
      | None => checkMessage [rule] message
      end.
Proof.
  destruct (addRule_appends rules stamp prompt) as (rule & _ & ->).
  exists rule. split; [done|]. simpl. unfold checkMessage.
  apply check_loop_app.
Qed.

(** ** Deactivation and matching *)

Lemma check_loop_inactive (msgLower : str) (r : MASUpdateRule)
    (rest : DynamicRuleStore) :
  active r = false → check_loop msgLower (r :: rest) = check_loop msgLower rest.
Proof. intros Ha. simpl. by rewrite Ha. Qed.

Lemma check_loop_insert_inactive (msgLower : str) (rules : DynamicRuleStore) i r :
  rules !! i = Some r →
  check_loop msgLower (<[i := set_inactive r]> rules)
  = check_loop msgLower (delete i rules).
Proof.
  intros Hi. assert (Hlt : i < length rules) by (by eapply lookup_lt_Some).
  rewrite insert_take_drop by done. rewrite delete_take_drop.
  rewrite !check_loop_app. by rewrite check_loop_inactive.
Qed.

Lemma find_rule_first (rules : DynamicRuleStore) (ruleId : str) i r :
  rules !! i = Some r → id r = ruleId →
  (∀ j x, j < i → rules !! j = Some x → id x ≠ ruleId) →
  find_rule rules ruleId = Some (i, r).
Proof.
  intros Hi Hid Hbefore. apply list_find_Some. split; [done|]. split; [done|].
  intros j x Hx Hj. by eapply Hbefore.
Qed.

(** X5. For matching, deactivating a rule is removing it: after
    [deactivateRule] every message is answered as by the store without the
    rule that was deactivated. *)
Theorem deactivateRule_matches_as_removed
    (rules : DynamicRuleStore) (ruleId : str) i r (message : str) :
  rules !! i = Some r → id r = ruleId →
  (∀ j x, j < i → rules !! j = Some x → id x ≠ ruleId) →
  checkMessage (snd (deactivateRule rules ruleId)) message
  = checkMessage (delete i rules) message.
Proof.
  intros Hi Hid Hbefore. unfold deactivateRule.
  rewrite (find_rule_first rules ruleId i r) by done. simpl.
  unfold checkMessage. by apply check_loop_insert_inactive.
Qed.

Lemma deactivateRule_matches_as_removed_witness :
  [R1; R2] !! 0 = Some R1 ∧
  checkMessage (snd (deactivateRule [R1; R2] (id R1))) "update my address"
  = checkMessage [R2] "update my address" ∧
  checkMessage [R2] "update my address" = Some R2.
Proof.
  split; [reflexivity|]. split; [|reflexivity].
  apply (deactivateRule_matches_as_removed [R1; R2] (id R1) 0 R1
           "update my address"); [reflexivity | reflexivity |].
  intros j x Hj. lia.
Defined.

(** X6. [deactivateRule] is idempotent: a second call with the same id
    returns the same boolean (true also for a rule that is already inactive)
    and leaves the store as the first call left it. *)
Theorem deactivateRule_twice (rules : DynamicRuleStore) (ruleId : str) :
  deactivateRule (snd (deactivateRule rules ruleId)) ruleId
  = deactivateRule rules ruleId.
Proof.
  unfold deactivateRule at 2 3.
  destruct (find_rule rules ruleId) as [[i r]|] eqn:E; simpl.
  - pose proof E as E'. apply list_find_Some in E' as (Hi & Hid & Hbefore).
    assert (Hlt : i < length rules) by (by eapply lookup_lt_Some).
    unfold deactivateRule.
    rewrite (find_rule_first _ ruleId i (set_inactive r)).
    + simpl. by rewrite list_insert_insert_eq.
    + by apply list_lookup_insert_eq.
    + done.
    + intros j x Hj Hx. rewrite list_lookup_insert_ne in Hx by lia.
      by eapply Hbefore.
  - unfold deactivateRule. by rewrite E.
Qed.

(** ** Rules that share an id *)

Lemma step_keeps_shadowed (rules : DynamicRuleStore) (op : Op) i j ri rj :
  op ≠ OpClear → i < j →
  rules !! i = Some ri → rules !! j = Some rj → id ri = id rj →
  ∃ ri', step rules op !! i = Some ri' ∧ id ri' = id rj ∧
         step rules op !! j = Some rj.
Proof.
  intros Hop Hij Hi Hj Hid. destruct op as [stamp prompt | ruleId |]; simpl;
    [| |done].
  - destruct (addRule_appends rules stamp prompt) as (rule & _ & ->). simpl.
    exists ri. split; [by apply lookup_app_l_Some|].
    split; [done | by apply lookup_app_l_Some].
  - unfold deactivateRule.
    destruct (find_rule rules ruleId) as [[k rk]|] eqn:E; simpl; [|eauto].
    apply list_find_Some in E as (Hk & Hidk & Hbefore).
    assert (Hkj : k ≠ j).
    { intros ->. apply (Hbefore i ri); [done | lia |]. congruence. }
    rewrite (list_lookup_insert_ne _ k j) by done.
    destruct (decide (k = i)) as [->|Hki].
    + exists (set_inactive ri).
      rewrite list_lookup_insert_eq by (by eapply lookup_lt_Some).
      assert (rk = ri) as -> by congruence. done.
    + exists ri. by rewrite list_lookup_insert_ne.
Qed.

(** X7. [deactivateRule] only ever reaches the first rule with a given id:
    a rule that shares its id with an earlier rule keeps its place and its
    [active] flag under every sequence of [addRule] and [deactivateRule]
    calls. *)
Theorem shadowed_rule_never_deactivated
    (rules : DynamicRuleStore) (ops : list Op) i j ri rj :
  i < j → rules !! i = Some ri → rules !! j = Some rj → id ri = id rj →
  Forall (λ op, op ≠ OpClear) ops →
  run_ops rules ops !! j = Some rj.
Proof.
  intros Hij Hi Hj Hid Hops. unfold run_ops.
  revert rules ri Hi Hj Hid.
  induction Hops as [|op ops Hop Hops IH]; intros rules ri Hi Hj Hid; simpl;
    [done|].
  destruct (step_keeps_shadowed rules op i j ri rj) as (ri' & Hi' & Hid' & Hj');
    try done.
  by eapply IH.
Qed.

Lemma shadowed_rule_never_deactivated_witness :
  0 < 1 ∧ id R1 = id R1_twin ∧
  run_ops [R1; R1_twin] [OpDeactivate (id R1_twin); OpDeactivate (id R1_twin)] !! 1
  = Some R1_twin.
Proof.
  split; [lia|]. split; [reflexivity|].
  apply (shadowed_rule_never_deactivated [R1; R1_twin] _ 0 1 R1 R1_twin);
    [lia | reflexivity | reflexivity | reflexivity |].
  repeat constructor; discriminate.
Defined.

(** ** Longer messages *)

Lemma fires_mono (msgLower msgLower' : str) (r : MASUpdateRule) :
  occurs msgLower msgLower' →
  fires msgLower r = true → fires msgLower' r = true.
Proof.
  unfold fires. rewrite !andb_true_iff, !existsb_exists.
  intros Hsub [Ha (kw & Hkw & Hhit)]. split; [done|]. exists kw. split; [done|].
  apply hit_occurs. apply hit_occurs in Hhit. by eapply occurs_trans.
Qed.

(** X8. Text around what matched never loses the match: when
    [checkMessage] answers a message with a rule, it answers every message
    whose lowercased text contains the lowercased text of the first with
    that rule or with a rule stored before it. *)
Theorem longer_message_still_matches
    (rules : DynamicRuleStore) (message message' : str) r :
  checkMessage rules message = Some r →
  occurs (toLowerCase message) (toLowerCase message') →
  ∃ i j r', j ≤ i ∧ rules !! i = Some r ∧ rules !! j = Some r' ∧
            checkMessage rules message' = Some r'.
Proof.
  unfold checkMessage. rewrite !check_loop_find.
  destruct (list_find _ rules) as [[i r0]|] eqn:E; [|done].
  simpl. intros [= ->] Hsub. apply list_find_Some in E as (Hi & Hf & _).
  destruct (list_find_elem_of
              (λ x, fires (toLowerCase message') x = true)
              rules r) as [[j r'] F].
  { by eapply list_elem_of_lookup_2. }
  { by eapply fires_mono. }
  rewrite F. simpl. pose proof F as F'.
  apply list_find_Some in F' as (Hj & _ & Hbefore).
  exists i, j, r'. repeat split; try done.
  destruct (decide (j ≤ i)) as [|Hgt]; [done|]. exfalso.
  apply (Hbefore i r); [done | lia | by eapply fires_mono].
Qed.

Lemma longer_message_still_matches_witness :
  checkMessage [R1; R2] "My Address" = Some R1 ∧
  occurs (toLowerCase "My Address") (toLowerCase "Update MY ADDRESS please") ∧
  ∃ i j r', j ≤ i ∧ [R1; R2] !! i = Some R1 ∧ [R1; R2] !! j = Some r' ∧
            checkMessage [R1; R2] "Update MY ADDRESS please" = Some r'.
Proof.
  assert (H : checkMessage [R1; R2] "My Address" = Some R1) by reflexivity.
  assert (Hsub : occurs (toLowerCase "My Address")
                        (toLowerCase "Update MY ADDRESS please"))
    by (apply includes_spec; vm_compute; reflexivity).
  split; [exact H|]. split; [exact Hsub|].
  exact (longer_message_still_matches [R1; R2] "My Address"
           "Update MY ADDRESS please" R1 H Hsub).
Defined.

(** ** Adding and deactivating *)

(** X9. Adding a rule and deactivating it by the id that [addRule] returned
    restores the matching behaviour of the store, provided no rule stored
    before has that id. *)
Theorem add_then_deactivate
    (rules : DynamicRuleStore) (stamp : Stamp) (prompt message : str) rule :
  fst (addRule rules stamp prompt) = Some rule →
  (∀ x, x ∈ rules → id x ≠ id rule) →
  fst (deactivateRule (snd (addRule rules stamp prompt)) (id rule)) = true ∧
  checkMessage
    (snd (deactivateRule (snd (addRule rules stamp prompt)) (id rule))) message
  = checkMessage rules message.
Proof.
  destruct (addRule_appends rules stamp prompt) as (rule' & _ & ->). simpl.
  intros [= ->] Hfresh.
  assert (Hfind : find_rule (rules ++ [rule]) (id rule)
                  = Some (length rules, rule)).
  { apply find_rule_first; [|done|].
    - rewrite lookup_app_r by lia. by rewrite Nat.sub_diag.
    - intros j x Hj Hx. rewrite lookup_app_l in Hx by done.
      apply Hfresh. by eapply list_elem_of_lookup_2. }
  unfold deactivateRule. rewrite Hfind. simpl. split; [done|].
  unfold checkMessage.
  rewrite check_loop_insert_inactive
    by (rewrite lookup_app_r by lia; by rewrite Nat.sub_diag).
  rewrite delete_take_drop, take_app_length.
  rewrite drop_ge by (rewrite length_app; simpl; lia).
  by rewrite app_nil_r.
Qed.

Lemma add_then_deactivate_witness :
  ∃ rule,
    fst (addRule [R1] sample_stamp "Block all refund requests") = Some rule ∧
    (∀ x, x ∈ [R1] → id x ≠ id rule) ∧
    checkMessage
      (snd (deactivateRule
              (snd (addRule [R1] sample_stamp "Block all refund requests"))
              (id rule))) "I want a refund"
    = checkMessage [R1] "I want a refund".
Proof.
  eexists. split; [reflexivity|].
  match goal with |- ?F ∧ _ => assert (Hfresh : F) end.
  { intros x Hx. split_elem_of. vm_compute. discriminate. }
  split; [exact Hfresh|].
  apply (add_then_deactivate [R1] sample_stamp "Block all refund requests"
           "I want a refund" _ eq_refl Hfresh).
Defined.

(** ** The action of a parsed rule *)

Lemma parsePrompt_fields (stamp : Stamp) (prompt : str) :
  ∃ rule, parsePrompt stamp prompt = Some rule ∧
          type (action rule) = fst (classify (toLowerCase prompt)) ∧
          reason (action rule) = Some (snd (classify (toLowerCase prompt))) ∧
          targetAgent (action rule) = None ∧
          intent (trigger rule) = None.
Proof.
  unfold parsePrompt. destruct (classify (toLowerCase prompt)) as [a rs].
  eexists. split; [reflexivity|]. done.
Qed.

Lemma includes_or2 (s a b : str) :
  includes s a || includes s b = true ↔ occurs a s ∨ occurs b s.
Proof. by rewrite orb_true_iff, !includes_spec. Qed.

Lemma includes_or3 (s a b c : str) :
  includes s a || includes s b || includes s c = true
  ↔ occurs a s ∨ occurs b s ∨ occurs c s.
Proof. rewrite !orb_true_iff, !includes_spec. tauto. Qed.

(** X10. The action of a parsed rule, from the phrases of the lowercased
    prompt.  The type is REDIRECT when a redirect phrase occurs, else BLOCK
    when a block phrase occurs, else ESCALATE (whether or not an escalate
    phrase occurs); it is never MODIFY_RESPONSE.  The reason is always
    present and follows the block and escalate phrases only, so a REDIRECT
    rule carries the reason of a BLOCK or ESCALATE rule, and no target
    agent. *)
Theorem parsePrompt_action (stamp : Stamp) (prompt : str) :
  let pl := toLowerCase prompt in
  let E := occurs "escalate" pl ∨ occurs "needs_attention" pl in
  let B := occurs "do not" pl ∨ occurs "don't" pl ∨ occurs "block" pl in
  let R := occurs "redirect" pl ∨ occurs "route to" pl in
  ∃ rule, parsePrompt stamp prompt = Some rule ∧
    (type (action rule) = redirect ↔ R) ∧
    (type (action rule) = block ↔ B ∧ ¬ R) ∧
    (type (action rule) = escalate ↔ ¬ B ∧ ¬ R) ∧
    type (action rule) ≠ modify_response ∧
    (reason (action rule) = Some ("Action blocked by dynamic rule" : str) ↔ B) ∧
    (reason (action rule) = Some ("Requires manual review per dynamic rule" : str)
     ↔ E ∧ ¬ B) ∧
    (reason (action rule) = Some ("Dynamic rule triggered" : str) ↔ ¬ E ∧ ¬ B) ∧
    targetAgent (action rule) = None.
Proof.
  intros pl E B R.
  destruct (parsePrompt_fields stamp prompt) as (rule & H & Ht & Hr & Hta & _).
  exists rule. split; [done|]. rewrite Ht, Hr. fold pl.
  pose proof (includes_or2 pl "escalate" "needs_attention") as HE.
  pose proof (includes_or3 pl "do not" "don't" "block") as HB.
  pose proof (includes_or2 pl "redirect" "route to") as HR.
  fold E in HE. fold B in HB. fold R in HR.
  unfold classify.
  destruct (includes pl "escalate" || includes pl "needs_attention");
    destruct (includes pl "do not" || includes pl "don't" || includes pl "block");
    destruct (includes pl "redirect" || includes pl "route to");
    cbn [fst snd];
    repeat split; try done; try tauto; try discriminate;
    try (intros [= ?]; tauto);
    try (intros [=]).
  all: try (intros ?; exfalso; intuition discriminate).
Qed.

(** ** Prompts without the first word of a trigger pattern *)

Lemma occurs_tail (t s : str) c : occurs t s → occurs t (c :: s).
Proof. intros (a & b & ->). by exists (c :: a), b. Qed.

Lemma exec_at_word_None (w : str) (r : regex) (s : str) :
  Forall (λ c, in_range 97 122 c = true) w →
  ¬ occurs w (toLowerCase s) →
  exec_at true (Seq (Lit w) r) s = None.
Proof.
  intros Hw Hno. unfold exec_at. rewrite run_Seq, run_Lit by done.
  destruct (after_word w s) as [s'|] eqn:E; [exfalso|done].
  apply after_word_Some in E as (m & -> & Hm). apply Hno.
  exists [], (toLowerCase s'). rewrite toLowerCase_app, Hm. simpl.
  f_equal. apply fixed_lowercase.
  eapply Forall_impl; [exact Hw|]. intros c Hc. by apply lower_char_letter.
Qed.

(** A pattern that begins with a word does not match a text in which the
    word does not occur, in any letter case. *)
Lemma match_word_None (w : str) (r : regex) (i : nat) (s : str) :
  Forall (λ c, in_range 97 122 c = true) w →
  ¬ occurs w (toLowerCase s) →
  match_from true (Seq (Lit w) r) i s = None.
Proof.
  intros Hw. revert i. induction s as [|c s IH]; intros i Hno;
    cbn [match_from]; rewrite exec_at_word_None by done; [done|].
  apply IH. intros H. apply Hno. simpl. by apply occurs_tail.
Qed.

(** X11. A prompt in which none of the words if, when and for occurs, in
    any letter case, takes its keywords from the fallback: at most three
    words of the stripped prompt. *)
Theorem prompt_without_trigger_word (stamp : Stamp) (prompt : str) :
  ¬ occurs "if" (toLowerCase prompt) →
  ¬ occurs "when" (toLowerCase prompt) →
  ¬ occurs "for" (toLowerCase prompt) →
  ∃ rule, parsePrompt stamp prompt = Some rule ∧
    keywords (trigger rule) = fallback_words (toLowerCase prompt) ∧
    length (keywords (trigger rule)) ≤ 3.
Proof.
  intros Hif Hwhen Hfor.
  destruct (parsePrompt_total stamp prompt) as (rule & H & Hk & _).
  exists rule. split; [done|].
  assert (Hf : keywords (trigger rule) = fallback_words (toLowerCase prompt)).
  { rewrite Hk. unfold extract_keywords, triggerPatterns. cbn [scan_patterns].
    unfold match_, pattern_if_customer, pattern_when_customer,
      pattern_for_requests.
    rewrite !match_word_None by first [assumption | repeat constructor].
    done. }
  split; [done|]. rewrite Hf. apply fallback_words_bounds.
Qed.

Lemma prompt_without_trigger_word_witness :
  ¬ occurs "if" (toLowerCase "Block all refund requests over $500") ∧
  ¬ occurs "when" (toLowerCase "Block all refund requests over $500") ∧
  ¬ occurs "for" (toLowerCase "Block all refund requests over $500") ∧
  ∃ rule,
    parsePrompt sample_stamp "Block all refund requests over $500" = Some rule ∧
    keywords (trigger rule)
    = fallback_words (toLowerCase "Block all refund requests over $500").
Proof.
  assert (H1 : ¬ occurs "if" (toLowerCase "Block all refund requests over $500"))
    by (apply includes_false; vm_compute; reflexivity).
  assert (H2 : ¬ occurs "when" (toLowerCase "Block all refund requests over $500"))
    by (apply includes_false; vm_compute; reflexivity).
  assert (H3 : ¬ occurs "for" (toLowerCase "Block all refund requests over $500"))
    by (apply includes_false; vm_compute; reflexivity).
  split; [exact H1|]. split; [exact H2|]. split; [exact H3|].
  destruct (prompt_without_trigger_word sample_stamp
              "Block all refund requests over $500" H1 H2 H3)
    as (rule & H & Hk & _).
  exists rule. split; [exact H | exact Hk].
Defined.

(** ** A rule added to the store *)

(** X12. After [addRule], a message whose lowercased text contains a keyword
    of the new rule is matched: by the rule that answered it before, or
    else by the new rule, and then [applyDynamicRules] reports the new rule
    with [blocked] and [escalate] as the phrases of the prompt decide. *)
Theorem added_rule_applies
    (rules : DynamicRuleStore) (stamp : Stamp) (prompt message kw : str) rule :
  fst (addRule rules stamp prompt) = Some rule →
  kw ∈ keywords (trigger rule) →
  occurs kw (toLowerCase message) →
  let pl := toLowerCase prompt in
  let B := occurs "do not" pl ∨ occurs "don't" pl ∨ occurs "block" pl in
  let R := occurs "redirect" pl ∨ occurs "route to" pl in
  let result := applyDynamicRules (snd (addRule rules stamp prompt)) message in
  (∀ r, checkMessage rules message = Some r → Applied.rule result = Some r) ∧
  (checkMessage rules message = None →
   Applied.rule result = Some rule ∧
   (Applied.blocked result = true ↔ B ∧ ¬ R) ∧
   (Applied.escalate result = true ↔ ¬ B ∧ ¬ R) ∧
   Applied.tag result = tag (action rule) ∧
   Applied.reason result = reason (action rule)).
Proof.
  intros Hadd Hkw Hocc pl B R result.
  destruct (parsePrompt_total stamp prompt) as (rule0 & Hp & Hk & Ht & _ & Ha).
  destruct (addRule_appends rules stamp prompt) as (rule1 & Hp1 & Hadd1).
  assert (rule1 = rule0) as -> by congruence.
  assert (rule0 = rule) as -> by (rewrite Hadd1 in Hadd; by injection Hadd).
  assert (Hcheck : checkMessage (snd (addRule rules stamp prompt)) message
                   = match checkMessage rules message with
                     | Some r => Some r
                     | None => checkMessage [rule] message
                     end).
  { rewrite Hadd1. simpl. unfold checkMessage. apply check_loop_app. }
  assert (Hnew : checkMessage [rule] message = Some rule).
  { unfold checkMessage. simpl. rewrite Ha. simpl.
    rewrite filter_hits_existsb.
    assert (existsb (hit (toLowerCase message)) (keywords (trigger rule)) = true)
      as ->; [|done].
    apply existsb_exists. exists kw. split; [by apply list_elem_of_In|].
    by apply hit_occurs. }
  subst result. unfold applyDynamicRules. rewrite Hcheck. split.
  - intros r ->. done.
  - intros ->. rewrite Hnew. simpl. split; [done|].
    rewrite Ht, classify_type. fold pl.
    pose proof (includes_or3 pl "do not" "don't" "block") as HB.
    pose proof (includes_or2 pl "redirect" "route to") as HR.
    fold B in HB. fold R in HR.
    destruct (includes pl "redirect" || includes pl "route to");
      destruct (includes pl "do not" || includes pl "don't"
                || includes pl "block");
      simpl; repeat split; try done; try tauto;
      intuition discriminate.
Qed.

Lemma added_rule_applies_witness :
  ∃ rule,
    fst (addRule [R1] sample_stamp "Block all refund requests") = Some rule ∧
    ("refund" : str) ∈ keywords (trigger rule) ∧
    occurs "refund" (toLowerCase "I want a REFUND") ∧
    checkMessage [R1] "I want a REFUND" = None ∧
    Applied.rule
      (applyDynamicRules
         (snd (addRule [R1] sample_stamp "Block all refund requests"))
         "I want a REFUND") = Some rule.
Proof.
  destruct (addRule_appends [R1] sample_stamp "Block all refund requests")
    as (rule & Hp & Hadd).
  destruct (parsePrompt_total sample_stamp "Block all refund requests")
    as (rule' & Hp' & Hk & _).
  assert (rule' = rule) as -> by congruence.
  assert (Hfst : fst (addRule [R1] sample_stamp "Block all refund requests")
                 = Some rule) by (by rewrite Hadd).
  assert (He : extract_keywords "Block all refund requests"
               = ["block" : str; "refund" : str; "requests" : str])
    by (vm_compute; reflexivity).
  assert (Hkw : ("refund" : str) ∈ keywords (trigger rule)).
  { rewrite Hk, He. apply elem_of_cons. right. apply elem_of_cons. by left. }
  assert (Hocc : occurs "refund" (toLowerCase "I want a REFUND"))
    by (apply includes_spec; vm_compute; reflexivity).
  assert (Hnone : checkMessage [R1] "I want a REFUND" = None)
    by (vm_compute; reflexivity).
  exists rule. split; [exact Hfst|]. split; [exact Hkw|].
  split; [exact Hocc|]. split; [exact Hnone|].
  apply (added_rule_applies [R1] sample_stamp "Block all refund requests"
           "I want a REFUND" "refund" rule Hfst Hkw Hocc).
  exact Hnone.
Defined.

(** ** Stored rules keep what was parsed *)

Lemma parsePrompt_parsed (stamp : Stamp) (prompt : str) rule :
  parsePrompt stamp prompt = Some rule → parsed_from_prompt rule.
Proof.
  unfold parsePrompt, parsed_from_prompt.
  destruct (classify (toLowerCase prompt)) as [a rs] eqn:E.
  intros [= <-]. simpl. by rewrite E.
Qed.

Lemma step_parsed (rules : DynamicRuleStore) (op : Op) :
  Forall parsed_from_prompt rules → Forall parsed_from_prompt (step rules op).
Proof.
  intros Hinv. destruct op as [stamp prompt | ruleId |]; simpl.
  - destruct (addRule_appends rules stamp prompt) as (rule & Hp & ->). simpl.
    apply Forall_app. split; [done|]. constructor; [|constructor].
    by eapply parsePrompt_parsed.
  - unfold deactivateRule.
    destruct (find_rule rules ruleId) as [[i r]|] eqn:E; [|done]. simpl.
    apply list_find_Some in E as (Hi & _ & _).
    apply Forall_insert; [done|].
    eapply Forall_lookup_1 in Hinv; [|exact Hi]. exact Hinv.
  - constructor.
Qed.

(** X13. The operations of the store change nothing of a rule but its
    [active] flag: in every store reached from the empty one, each rule
    still has the keywords, action type, reason and tag that [parsePrompt]
    computes from the prompt it stores. *)
Theorem stored_rules_parsed (rules : DynamicRuleStore) :
  reachable rules → Forall parsed_from_prompt rules.
Proof.
  intros [ops ->]. unfold run_ops.
  assert (H : Forall parsed_from_prompt []) by constructor.
  revert H. generalize (@nil MASUpdateRule).
  induction ops as [|op ops IH]; intros rules H; simpl; [done|].
  by apply IH, step_parsed.
Qed.

Lemma stored_rules_parsed_witness :
  Forall parsed_from_prompt
    (run_ops [] [OpAdd sample_stamp "Block all refund requests over $500";
                 OpDeactivate "rule_1767225600000_k3f9"]).
Proof.
  apply stored_rules_parsed. eexists. reflexivity.
Defined.

(** ** Short prompts *)

Lemma match_from_short ic (r : regex) (i : nat) (s : str) :
  length s < min_len r → match_from ic r i s = None.
Proof.
  revert i. induction s as [|c s IH]; intros i Hlen; cbn [match_from].
  - destruct (exec_at ic r []) as [[[w g] rest]|] eqn:E; [exfalso|done].
    unfold exec_at in E. apply run_min_len in E as (s' & g' & _ & Hl).
    simpl in *. lia.
  - destruct (exec_at ic r (c :: s)) as [[[w g] rest]|] eqn:E.
    + exfalso. unfold exec_at in E.
      apply run_min_len in E as (s' & g' & _ & Hl). lia.
    + apply IH. simpl in Hlen. lia.
Qed.

Lemma remove_from_length ic (r : regex) skip (s : str) :
  length (remove_from ic r skip s) ≤ length s.
Proof.
  revert skip. induction s as [|c s IH]; intros skip; simpl; [lia|].
  destruct skip as [|m]; [|specialize (IH m); lia].
  destruct (exec_at ic r (c :: s)) as [[[w g] rest]|].
  - destruct (length w) as [|n]; simpl.
    + specialize (IH 0). lia.
    + specialize (IH n). lia.
  - simpl. specialize (IH 0). lia.
Qed.

Lemma split_from_length ic (r : regex) skip (cur s : str) :
  Forall (λ w, length w ≤ length cur + length s) (split_from ic r skip cur s).
Proof.
  revert skip cur. induction s as [|c s IH]; intros skip cur; simpl.
  - constructor; [rewrite length_rev; lia | constructor].
  - destruct skip.
    + destruct (exec_at ic r (c :: s)) as [[[w g] rest]|].
      * destruct (length w) as [|n], cur as [|x cur];
          try (constructor; [rewrite length_rev; simpl; lia|]);
          (eapply Forall_impl; [apply IH|]); intros u Hu; simpl in *; lia.
      * eapply Forall_impl; [apply IH|]. intros u Hu. simpl in *. lia.
    + eapply Forall_impl; [apply IH|]. intros u Hu. simpl in *. lia.
Qed.

Lemma split_length ic (r : regex) (s : str) :
  Forall (λ w, length w ≤ length s) (split ic r s).
Proof.
  destruct s as [|c s]; simpl.
  - destruct (exec_at ic r []); repeat constructor.
  - apply (split_from_length ic r 0 [] (c :: s)).
Qed.

Lemma fallback_words_short (promptLower : str) :
  length promptLower < 4 → fallback_words promptLower = [].
Proof.
  intros Hlen. unfold fallback_words.
  assert (List.filter (λ w : str, 3 <? length w)
            (split false non_letters
               (replace_all_empty false prompt_stop_words promptLower)) = [])
    as ->; [|done].
  pose proof (split_length false non_letters
                (replace_all_empty false prompt_stop_words promptLower)) as H.
  pose proof (remove_from_length false prompt_stop_words 0 promptLower) as Hr.
  fold (replace_all_empty false prompt_stop_words promptLower) in Hr.
  induction H as [|w l Hw Hl IH]; simpl; [done|].
  assert ((3 <? length w) = false) as -> by (apply Nat.ltb_ge; lia).
  exact IH.
Qed.

Lemma short_prompt_fallback (prompt : str) :
  length prompt < 13 →
  extract_keywords prompt = fallback_words (toLowerCase prompt).
Proof.
  intros Hlen.
  assert (H1 : min_len pattern_if_customer = 20) by reflexivity.
  assert (H2 : min_len pattern_when_customer = 15) by reflexivity.
  assert (H3 : min_len pattern_for_requests = 13) by reflexivity.
  unfold extract_keywords, triggerPatterns. cbn [scan_patterns].
  unfold match_. rewrite !match_from_short by lia. done.
Qed.

(** X17. A prompt of fewer than 13 characters is too short for a trigger
    pattern and takes its keywords from the fallback; a prompt of fewer than
    4 characters yields a rule with no keyword at all, which [addRule]
    stores as active and which matches no message. *)
Theorem short_prompt (stamp : Stamp) (prompt : str) :
  ∃ rule, parsePrompt stamp prompt = Some rule ∧
    (length prompt < 13 →
     keywords (trigger rule) = fallback_words (toLowerCase prompt)) ∧
    (length prompt < 4 →
     keywords (trigger rule) = [] ∧ active rule = true ∧
     ∀ message, checkMessage [rule] message = None).
Proof.
  destruct (parsePrompt_total stamp prompt) as (rule & H & Hk & _ & _ & Ha).
  exists rule. split; [done|]. split.
  - intros Hlen. rewrite Hk. by apply short_prompt_fallback.
  - intros Hlen.
    assert (Hnil : keywords (trigger rule) = []).
    { rewrite Hk, short_prompt_fallback by lia.
      apply fallback_words_short. rewrite toLowerCase_length. lia. }
    split; [done|]. split; [done|].
    intros message. unfold checkMessage. simpl. rewrite Ha, Hnil. done.
Qed.

Lemma short_prompt_witness :
  ∃ rule,
    parsePrompt sample_stamp "VIP" = Some rule ∧
    length ("VIP" : str) < 4 ∧
    keywords (trigger rule) = [] ∧
    checkMessage [rule] "I am a VIP customer" = None.
Proof.
  destruct (short_prompt sample_stamp "VIP") as (rule & H & _ & Hshort).
  assert (Hlen : length ("VIP" : str) < 4) by (simpl; lia).
  destruct (Hshort Hlen) as (Hnil & _ & Hnever).
  exists rule. split; [exact H|]. split; [exact Hlen|].
  split; [exact Hnil | apply Hnever].
Defined.

(** ** [trim] *)

Lemma trimStart_head (s : str) c t : trimStart s = c :: t → is_space c = false.
Proof.
  induction s as [|x s IH]; simpl; [done|].
  destruct (is_space x) eqn:E; [done|]. by intros [= <- _].
Qed.

Lemma trimStart_fixed (s : str) : starts_outside is_space s → trimStart s = s.
Proof. destruct s as [|c s]; simpl; [done|]. by intros ->. Qed.

Lemma trimStart_suffix (s : str) :
  ∃ sp, s = sp ++ trimStart s ∧ Forall (λ c, is_space c = true) sp.
Proof.
  induction s as [|c s (sp & Hs & Hsp)]; simpl; [by exists []|].
  destruct (is_space c) eqn:E.
  - exists (c :: sp). split; [by rewrite Hs at 1 | by constructor].
  - by exists [].
Qed.

Lemma trimStart_spaces (s : str) :
  trimStart s = [] ↔ Forall (λ c, is_space c = true) s.
Proof.
  induction s as [|c s IH]; simpl; [done|].
  destruct (is_space c) eqn:E.
  - rewrite IH. split; [by constructor | by inversion 1].
  - split; [done|]. inversion 1. congruence.
Qed.

Lemma trimEnd_last (s t : str) c : trimEnd s = t ++ [c] → is_space c = false.
Proof.
  unfold trimEnd. intros H. apply (f_equal (@rev ascii)) in H.
  rewrite rev_involutive, rev_app_distr in H. simpl in H.
  by eapply trimStart_head.
Qed.

Lemma trimEnd_prefix (s : str) :
  ∃ sp, s = trimEnd s ++ sp ∧ Forall (λ c, is_space c = true) sp.
Proof.
  unfold trimEnd. destruct (trimStart_suffix (rev s)) as (sp & Hs & Hsp).
  exists (rev sp). split; [|by apply Forall_rev].
  rewrite <- rev_app_distr, <- Hs. by rewrite rev_involutive.
Qed.

Lemma trimEnd_fixed (s t : str) c :
  s = t ++ [c] → is_space c = false → trimEnd s = s.
Proof.
  intros -> Hc. unfold trimEnd. rewrite rev_app_distr. simpl. rewrite Hc.
  simpl. by rewrite rev_involutive.
Qed.

Lemma trim_head (s : str) : starts_outside is_space (trim s).
Proof.
  unfold trim. destruct (trimEnd_prefix (trimStart s)) as (sp & Hs & _).
  destruct (trimEnd (trimStart s)) as [|c t] eqn:E; simpl; [done|].
  simpl in Hs. by eapply trimStart_head.
Qed.

Lemma trim_last (s t : str) c : trim s = t ++ [c] → is_space c = false.
Proof. unfold trim. apply trimEnd_last. Qed.

Lemma trim_spaces (s : str) : trim s = [] ↔ Forall (λ c, is_space c = true) s.
Proof.
  unfold trim. split.
  - intros H. destruct (trimEnd_prefix (trimStart s)) as (sp & Hs & Hsp).
    rewrite H in Hs. simpl in Hs.
    destruct (trimStart_suffix s) as (sp' & Hs' & Hsp').
    rewrite Hs'. apply Forall_app. split; [done|]. by rewrite Hs.
  - intros H. apply trimStart_spaces in H. by rewrite H.
Qed.

Lemma trim_idemp (s : str) : trim (trim s) = trim s.
Proof.
  pose proof (trim_head s) as Hh.
  assert (Hl : ∀ t c, trim s = t ++ [c] → is_space c = false)
    by (intros t c; apply trim_last).
  revert Hh Hl. generalize (trim s). intros u Hh Hl.
  destruct u as [|c t _] using rev_ind; [done|].
  unfold trim. rewrite trimStart_fixed by done.
  eapply trimEnd_fixed; [done|]. by eapply Hl.
Qed.

(** ** The console *)

Lemma startsWith_drop (s t : str) :
  startsWith s t = true → s = t ++ drop (length t) s.
Proof.
  intros [post ->]%startsWith_spec. by rewrite drop_app_length.
Qed.

(** The argument of a command, taken from a trimmed line. *)
Lemma argument_trimmed (input word : str) :
  startsWith (trim input) (word ++ [" "%char]) = true →
  trim (drop (length (word ++ [" "%char])) (trim input)) ≠ [] ∧
  trim (trim (drop (length (word ++ [" "%char])) (trim input)))
  = trim (drop (length (word ++ [" "%char])) (trim input)).
Proof.
  intros H. split; [|apply trim_idemp].
  apply startsWith_drop in H. set (rest := drop _ _) in *.
  intros Hnil. apply trim_spaces in Hnil.
  destruct rest as [|c t _] using rev_ind.
  - rewrite app_nil_r in H. apply trim_last in H. by vm_compute in H.
  - rewrite !app_assoc in H. apply trim_last in H.
    apply Forall_app in Hnil as [_ Hc]. inversion Hc. congruence.
Qed.

(** X14. The argument that the console passes to [runScenario] and to
    [startSession] is never empty and has no white space around it: a line
    that is only /run or /new, with or without spaces after it, calls
    neither. *)
Theorem command_argument (input arg : str) :
  command input = CmdRun arg ∨ command input = CmdNew arg →
  arg ≠ [] ∧ trim arg = arg ∧
  ∃ rest, (trim input = "/run " ++ rest ∨ trim input = "/new " ++ rest) ∧
          arg = trim rest.
Proof.
  unfold command.
  destruct (str_eqb (trim input) "/quit" || str_eqb (trim input) "/exit");
    [by intros [|]|].
  destruct (str_eqb (trim input) "/scenarios"); [by intros [|]|].
  destruct (startsWith (trim input) "/run ") eqn:Hrun.
  { intros [[= <-]|[=]].
    destruct (argument_trimmed input "/run" Hrun) as [Hne Hid].
    split; [exact Hne|]. split; [exact Hid|].
    exists (drop 5 (trim input)). split; [|done].
    left. by apply startsWith_drop in Hrun. }
  destruct (startsWith (trim input) "/new ") eqn:Hnew.
  { intros [[=]|[= <-]].
    destruct (argument_trimmed input "/new" Hnew) as [Hne Hid].
    split; [exact Hne|]. split; [exact Hid|].
    exists (drop 5 (trim input)). split; [|done].
    right. by apply startsWith_drop in Hnew. }
  destruct (str_eqb (trim input) "/trace"); [by intros [|]|].
  destruct (str_eqb (trim input) "/memory"); [by intros [|]|].
  destruct (str_eqb (trim input) "/status"); [by intros [|]|].
  destruct (str_eqb (trim input) "/help"); [by intros [|]|].
  destruct ((0 <? length (trim input)) && negb (startsWith (trim input) "/"));
    by intros [|].
Qed.

Lemma command_argument_witness :
  command "  /new   baki@lookfor.ai  " = CmdNew "baki@lookfor.ai" ∧
  ("baki@lookfor.ai" : str) ≠ [] ∧
  trim "baki@lookfor.ai" = ("baki@lookfor.ai" : str) ∧
  command "/run   " = CmdNone.
Proof.
  assert (H : command "  /new   baki@lookfor.ai  " = CmdNew "baki@lookfor.ai")
    by reflexivity.
  split; [exact H|].
  destruct (command_argument "  /new   baki@lookfor.ai  " "baki@lookfor.ai"
              (or_intror H)) as (Hne & Hid & _).
  split; [exact Hne|]. split; [exact Hid | reflexivity].
Defined.

Lemma slash_differs (t w : str) :
  startsWith t "/" = false → startsWith w "/" = true → str_eqb t w = false.
Proof.
  intros Ht Hw. unfold str_eqb. apply bool_decide_eq_false. intros ->. congruence.
Qed.

Lemma slash_prefix (t w : str) :
  startsWith t "/" = false → startsWith w "/" = true → startsWith t w = false.
Proof.
  intros Ht Hw. destruct (startsWith t w) eqn:E; [|done].
  apply startsWith_spec in E as [post ->].
  apply startsWith_spec in Hw as [post' ->].
  simpl in Ht. discriminate Ht.
Qed.

(** The last branch of the callback is taken exactly when the trimmed line
    is not empty and does not begin with a slash; [sendMessage] is called
    with the trimmed line. *)
Lemma command_CmdSend (input message : str) :
  command input = CmdSend message ↔
  message = trim input ∧ message ≠ [] ∧ startsWith message "/" = false.
Proof.
  unfold command. split.
  - destruct (str_eqb (trim input) "/quit" || str_eqb (trim input) "/exit");
      [done|].
    destruct (str_eqb (trim input) "/scenarios"); [done|].
    destruct (startsWith (trim input) "/run "); [done|].
    destruct (startsWith (trim input) "/new "); [done|].
    destruct (str_eqb (trim input) "/trace"); [done|].
    destruct (str_eqb (trim input) "/memory"); [done|].
    destruct (str_eqb (trim input) "/status"); [done|].
    destruct (str_eqb (trim input) "/help"); [done|].
    destruct ((0 <? length (trim input)) && negb (startsWith (trim input) "/"))
      eqn:E; [|done].
    intros [= <-]. apply andb_true_iff in E as [Hlen Hs].
    apply Nat.ltb_lt in Hlen. apply negb_true_iff in Hs.
    split; [done|]. split; [|done]. intros Hnil. rewrite Hnil in Hlen.
    simpl in Hlen. lia.
  - intros (-> & Hne & Hs).
    rewrite !(slash_differs (trim input)) by (exact Hs || reflexivity).
    rewrite !(slash_prefix (trim input)) by (exact Hs || reflexivity).
    simpl.
    destruct (trim input); [done|]. done.
Qed.

(** X15. The text of a line typed at the console reaches
    [runtime.handleMessage] exactly when a session is active, the trimmed
    line is not empty and it does not begin with a slash; the call has the
    current session and the trimmed line.  Without a session nothing is
    handed on, and a line that begins with a slash is never handed on as a
    customer message, whether or not it is a command. *)
Theorem typed_line_sent (currentSession : option str) (input session message : str) :
  typed_line_handled currentSession input = Some (session, message) ↔
  currentSession = Some session ∧ session ≠ [] ∧
  message = trim input ∧ message ≠ [] ∧ startsWith message "/" = false.
Proof.
  unfold typed_line_handled. split.
  - destruct (command input) as [| | | | | | | |m|] eqn:E; try done.
    apply command_CmdSend in E as (Hm & Hne & Hs).
    unfold sendMessage. destruct currentSession as [[|c s]|]; try done.
    intros [= <- <-]. done.
  - intros (-> & Hne & Hm & Hne' & Hs).
    assert (command input = CmdSend message) as ->
      by (by apply command_CmdSend).
    unfold sendMessage. by destruct session.
Qed.

Lemma typed_line_sent_witness :
  typed_line_handled (Some ("session_1" : str)) " Where is my order? "
  = Some ("session_1" : str, "Where is my order?" : str) ∧
  typed_line_handled None " Where is my order? " = None ∧
  typed_line_handled (Some ("session_1" : str)) " /unknown " = None.
Proof.
  split; [|split; reflexivity].
  apply (typed_line_sent (Some ("session_1" : str)) " Where is my order? "
           "session_1" "Where is my order?").
  split; [reflexivity|]. split; [discriminate|].
  split; [reflexivity|]. split; [discriminate | reflexivity].
Defined.

(** ** The mock LLM clients *)

Lemma lastUser_app (before after : list ChatMessage) (m : ChatMessage) :
  str_eqb (role m) "user" = true →
  Forall (λ x, str_eqb (role x) "user" = false) after →
  lastUser (before ++ m :: after) = Some m.
Proof.
  intros Hm Hafter. unfold lastUser.
  rewrite List.filter_app. cbn [List.filter]. rewrite Hm.
  assert (List.filter (λ x, str_eqb (role x) "user") after = []) as ->.
  { induction Hafter as [|x l Hx Hl IH]; cbn [List.filter]; [done|].
    by rewrite Hx. }
  apply last_snoc.
Qed.

Lemma lastUser_none (messages : list ChatMessage) :
  Forall (λ x, str_eqb (role x) "user" = false) messages →
  lastUser messages = None.
Proof.
  intros H. unfold lastUser.
  assert (List.filter (λ x, str_eqb (role x) "user") messages = []) as ->; [|done].
  induction H as [|x l Hx Hl IH]; cbn [List.filter]; [done|]. by rewrite Hx.
Qed.

(** X16. Both mock LLM clients answer from the last message with role user
    alone: earlier messages and later messages of other roles do not matter.
    They give the hand-over reply exactly when that message mentions human,
    manager, supervisor or real person, whatever else it mentions, and the
    default reply when there is no user message. *)
Theorem mock_chat_last_user :
  (∀ (before after : list ChatMessage) (m : ChatMessage),
     str_eqb (role m) "user" = true →
     Forall (λ x, str_eqb (role x) "user" = false) after →
     playground_chat (before ++ m :: after) = playground_chat [m] ∧
     judge_chat (before ++ m :: after) = judge_chat [m] ∧
     (playground_chat [m]
      = "I understand you would like to speak with a human agent. Let me escalate this for you."
      ↔ mentions_human (lastUserContent [m]) = true) ∧
     (judge_chat [m]
      = "I understand you would like to speak with a human agent. Let me escalate this for you."
      ↔ mentions_human (lastUserContent [m]) = true)) ∧
  (∀ messages : list ChatMessage,
     Forall (λ x, str_eqb (role x) "user" = false) messages →
     playground_chat messages
     = "I understand your request. How can I assist you further?" ∧
     judge_chat messages
     = "I understand your request. Let me help you with that.").
Proof.
  split.
  - intros before after m Hm Hafter.
    assert (Hc : lastUserContent (before ++ m :: after) = lastUserContent [m]).
    { pose proof (lastUser_app [] [] m Hm (List.Forall_nil _)) as H1.
      change ([] ++ [m]) with [m] in H1.
      unfold lastUserContent. rewrite lastUser_app by done. by rewrite H1. }
    unfold playground_chat, judge_chat. rewrite Hc.
    split; [done|]. split; [done|].
    destruct (mentions_human (lastUserContent [m])); [done|].
    split.
    + repeat (destruct (_ || _) || destruct (includes _ _));
        split; intros H; discriminate H.
    + repeat (destruct (_ || _) || destruct (includes _ _));
        split; intros H; discriminate H.
  - intros messages H. unfold playground_chat, judge_chat, lastUserContent.
    by rewrite lastUser_none.
Qed.

Lemma mock_chat_last_user_witness :
  playground_chat ([system_message] ++ user_message :: [agent_message])
  = playground_chat [user_message] ∧
  judge_chat ([system_message] ++ user_message :: [agent_message])
  = judge_chat [user_message] ∧
  playground_chat [user_message]
  = "I understand you would like to speak with a human agent. Let me escalate this for you.".
Proof.
  assert (Hu : str_eqb (role user_message) "user" = true) by reflexivity.
  assert (Ha : Forall (λ x, str_eqb (role x) "user" = false) [agent_message])
    by (repeat constructor).
  destruct (proj1 mock_chat_last_user [system_message] [agent_message]
              user_message Hu Ha)
    as (Hp & Hj & _ & _).
  split; [exact Hp|]. split; [exact Hj | reflexivity].
Defined.
